(** * chesse.py: the Stockfish analysis server

    A shallow embedding of [chesse.py] (one Flask handler, [analyze], in front
    of one UCI engine process) and the properties of its cache, its recovery
    path and its lock.

    - Python's insertion-ordered [dict] is an association list, oldest entry
      first ([OrderedDict] below).
    - The dict objects built by the handler live in a heap, so that [.copy()]
      and aliasing are visible ([World]).
    - Everything outside the file (python-chess, the engine process) is the
      record [Env]: what a call returns or raises, as a function of the calls
      made so far.
    - The handler is written in a state-and-exception monad ([M]).
    - The lock is studied on the interleavings of the handler's steps
      ([Threads]). *)

From stdpp Require Import base option list strings numbers pretty.

Local Open Scope string_scope.
Local Open Scope list_scope.
Local Open Scope nat_scope.

(** ** The insertion-ordered dictionary *)

Section OrderedDict.
Context {V : Type}.

(** [k in d] and [d[k]]. *)
Fixpoint dict_get (k : string) (d : list (string * V)) : option V :=
  match d with
  | [] => None
  | (k', v) :: d' => if decide (k' = k) then Some v else dict_get k d'
  end.

(** [next(iter(d))]: the oldest key, [None] for [StopIteration]. *)
Definition dict_first (d : list (string * V)) : option string :=
  match d with
  | [] => None
  | (k, _) :: _ => Some k
  end.

(** [d.pop(k)]: [None] for [KeyError]. *)
Fixpoint dict_pop (k : string) (d : list (string * V))
  : option (V * list (string * V)) :=
  match d with
  | [] => None
  | (k', v) :: d' =>
      if decide (k' = k) then Some (v, d')
      else match dict_pop k d' with
           | Some (x, d'') => Some (x, (k', v) :: d'')
           | None => None
           end
  end.

(** [d[k] = v]: a present key keeps its place, a new key goes last. *)
Fixpoint dict_set (k : string) (v : V) (d : list (string * V))
  : list (string * V) :=
  match d with
  | [] => [(k, v)]
  | (k', v') :: d' =>
      if decide (k' = k) then (k, v) :: d' else (k', v') :: dict_set k v d'
  end.

(** The keys in iteration (insertion) order. *)
Definition dict_keys (d : list (string * V)) : list string := d.*1.

End OrderedDict.

(** ** Exceptions and results *)

(** The exceptions the handler can meet; all of them are subclasses of
    [Exception]. [LibraryError] stands for whatever Flask, python-chess or the
    engine process raise, with the text [str(e)] gives. *)
Inductive PyExn :=
| AttributeError (msg : string)
| KeyError (msg : string)
| TypeError (msg : string)
| StopIteration
| LibraryError (msg : string).

(** [str(e)] *)
Definition str (e : PyExn) : string :=
  match e with
  | AttributeError msg | KeyError msg | TypeError msg | LibraryError msg => msg
  | StopIteration => ""
  end.

Inductive outcome (A : Type) :=
| Returns (a : A)
| Raises (e : PyExn).
Arguments Returns {A} a.
Arguments Raises {A} e.

(** ** The result cache: lines 53-54 and 128-130 *)

Definition MAX_CACHE_SIZE : nat := 512.

Section ResultCache.
Context {V : Type}.

(** [position_cache.pop(next(iter(position_cache)))] *)
Definition cache_evict (d : list (string * V)) : outcome (list (string * V)) :=
  match dict_first d with
  | None => Raises StopIteration
  | Some k0 =>
      match dict_pop k0 d with
      | None => Raises (KeyError k0)
      | Some (_, d') => Returns d'
      end
  end.

(** [if len(position_cache) >= MAX_CACHE_SIZE: <evict>] and then
    [position_cache[fen] = v]. *)
Definition cache_put (k : string) (v : V) (d : list (string * V))
  : outcome (list (string * V)) :=
  match
    (if bool_decide (MAX_CACHE_SIZE ≤ length d) then cache_evict d
     else Returns d)
  with
  | Raises e => Raises e
  | Returns d1 => Returns (dict_set k v d1)
  end.

(** A sequence of puts, first to last. *)
Fixpoint run_puts (ops : list (string * V)) (d : list (string * V))
  : outcome (list (string * V)) :=
  match ops with
  | [] => Returns d
  | (k, v) :: ops' =>
      match cache_put k v d with
      | Returns d' => run_puts ops' d'
      | Raises e => Raises e
      end
  end.

End ResultCache.

(** ** Requests: JSON values with Python's truth test *)

#[local] Set Warnings "-register-all".
Inductive JVal :=
| JNull
| JBool (b : bool)
| JNum (n : Z)
| JStr (s : string)
| JArr (items : list JVal)
| JObj (members : list (string * JVal)).

(** [bool(v)]: [None], [False], [0], [""], [[]] and [{}] are false. *)
Definition truthy (v : JVal) : bool :=
  match v with
  | JNull => false
  | JBool b => b
  | JNum n => negb (n =? 0)%Z
  | JStr s => negb (String.eqb s "")
  | JArr items => match items with [] => false | _ => true end
  | JObj members => match members with [] => false | _ => true end
  end.

(** [data.get(key)]: only a dict has [get]; a missing key gives [None]. *)
Definition data_get (key : string) (data : JVal) : outcome JVal :=
  match data with
  | JObj members => Returns (default JNull (dict_get key members))
  | _ => Raises (AttributeError "object has no attribute 'get'")
  end.

(** ** python-chess and the engine process, as the handler sees them *)

Abbreviation Handle := nat (only parsing).

(** [chess.Board(fen)] *)
Record Board := { board_fen : string }.

(** [result['score'].white()] as the handler observes it: [is_mate()] is true
    and [mate()] is [mate], or [is_mate()] is false and [score()] is [score]. *)
Inductive Score :=
| Cp (score : Z)
| Mate (mate : Z).

Record PovScore := { white : Score }.

(** The info dict [engine.analyse] returns; [info_score] is [None] when it has
    no ['score'] key. *)
Record InfoDict := { info_score : option PovScore }.

Record Move := { uci : string }.

(** What [engine.play] returns; [move] is [None] when the engine has none. *)
Record PlayResult := { move : option Move }.

(** One call that reached the engine layer, with whether it returned. *)
Inductive Event :=
| EvQuit (h : Handle) (ok : bool)
| EvPopen (ok : bool)
| EvConfigure (h : Handle) (ok : bool)
| EvAnalyse (h : Handle) (b : Board) (ok : bool)
| EvPlay (h : Handle) (b : Board) (ok : bool).

(** The world outside [chesse.py]. What a call does may depend on every call
    made before it, so each engine operation takes the history. [None] in
    [engine_quit], [popen_uci] and [engine_configure] is a normal return. *)
Record Env := {
  chess_Board : string → outcome Board;
  engine_quit : list Event → Handle → option PyExn;
  popen_uci : list Event → option PyExn;
  engine_configure : list Event → Handle → option PyExn;
  engine_analyse : list Event → Handle → Board → outcome InfoDict;
  engine_play : list Event → Handle → Board → outcome PlayResult
}.

(** ** The state of the server *)

(** The dict the handler builds at lines 121-126. *)
Record RespDict := {
  bestmove : string;
  evaluation : Z;
  fen : string;
  cached : bool
}.

Definition set_cached (b : bool) (d : RespDict) : RespDict :=
  {| bestmove := bestmove d; evaluation := evaluation d; fen := fen d;
     cached := b |}.

Abbreviation Addr := nat (only parsing).

(** The globals [engine] and [position_cache], the dict objects allocated so
    far (an address is an index into [heap]) and the engine calls made so
    far. The cache holds references. *)
Record World := {
  engine : option Handle;
  position_cache : list (string * Addr);
  heap : list RespDict;
  events : list Event
}.

Definition set_engine (h : Handle) (w : World) : World :=
  {| engine := Some h; position_cache := position_cache w; heap := heap w;
     events := events w |}.

Definition set_position_cache (c : list (string * Addr)) (w : World) : World :=
  {| engine := engine w; position_cache := c; heap := heap w;
     events := events w |}.

Definition set_heap (hp : list RespDict) (w : World) : World :=
  {| engine := engine w; position_cache := position_cache w; heap := hp;
     events := events w |}.

Definition log (ev : Event) (w : World) : World :=
  {| engine := engine w; position_cache := position_cache w; heap := heap w;
     events := events w ++ [ev] |}.

(** The module before line 72 has run. *)
Definition initial_world : World :=
  {| engine := None; position_cache := []; heap := []; events := [] |}.

(** ** The monad of the handler: state and exceptions *)

Definition M (A : Type) : Type := World → outcome A * World.

Global Instance M_ret : MRet M := λ A a w, (Returns a, w).

Global Instance M_bind : MBind M := λ A B f m w,
  match m w with
  | (Returns a, w') => f a w'
  | (Raises e, w') => (Raises e, w')
  end.

Definition raise {A} (e : PyExn) : M A := λ w, (Raises e, w).

(** [try: m  except: handler] *)
Definition try_except {A} (m : M A) (handler : PyExn → M A) : M A :=
  λ w, match m w with
       | (Returns a, w') => (Returns a, w')
       | (Raises e, w') => handler e w'
       end.

Definition lift {A} (o : outcome A) : M A := λ w, (o, w).

Definition get_world : M World := λ w, (Returns w, w).

Definition modify (f : World → World) : M unit := λ w, (Returns (), f w).

(** What the handler returns: an error payload with its status code, or
    [jsonify(d)] of the dict object at address [a], whose content at that
    moment is [d]. *)
Inductive Reply :=
| ReplyError (error : string) (code : nat)
| ReplyJson (a : Addr) (d : RespDict).

Inductive Body :=
| ErrorBody (error : string)
| ResultBody (d : RespDict).

Record HttpResponse := { status : nat; body : Body }.

Definition http_response (r : Reply) : HttpResponse :=
  match r with
  | ReplyError msg code => {| status := code; body := ErrorBody msg |}
  | ReplyJson _ d => {| status := 200; body := ResultBody d |}
  end.

(** ** The handler *)

Section Handler.
Context (env : Env).

(** *** Heap *)

(** A reference held by the program is always allocated; the [None] case is
    there for the function to be total (see [world_ok]). *)
Definition heap_read (a : Addr) : M RespDict := λ w,
  match heap w !! a with
  | Some d => (Returns d, w)
  | None => (Raises (LibraryError "unallocated object"), w)
  end.

Definition alloc (d : RespDict) : M Addr := λ w,
  (Returns (length (heap w)), set_heap (heap w ++ [d]) w).

(** [obj.copy()]: a new dict with the same items. *)
Definition dict_copy (a : Addr) : M Addr :=
  d ← heap_read a; alloc d.

(** [obj['cached'] = b] *)
Definition store_cached (a : Addr) (b : bool) : M unit :=
  d ← heap_read a; modify (λ w, set_heap (<[a := set_cached b d]> (heap w)) w).

Definition jsonify (a : Addr) : M Reply :=
  d ← heap_read a; mret (ReplyJson a d).

(** *** Calls on the global [engine] *)

(** [engine.quit()] *)
Definition quit : M unit := λ w,
  match engine w with
  | None => (Raises (AttributeError "'NoneType' object has no attribute"), w)
  | Some h =>
      match engine_quit env (events w) h with
      | None => (Returns (), log (EvQuit h true) w)
      | Some e => (Raises e, log (EvQuit h false) w)
      end
  end.

(** [engine.analyse(board, chess.engine.Limit(time=0.15))] *)
Definition analyse (board : Board) : M InfoDict := λ w,
  match engine w with
  | None => (Raises (AttributeError "'NoneType' object has no attribute"), w)
  | Some h =>
      match engine_analyse env (events w) h board with
      | Returns info => (Returns info, log (EvAnalyse h board true) w)
      | Raises e => (Raises e, log (EvAnalyse h board false) w)
      end
  end.

(** [engine.play(board, chess.engine.Limit(time=0.15))] *)
Definition play (board : Board) : M PlayResult := λ w,
  match engine w with
  | None => (Raises (AttributeError "'NoneType' object has no attribute"), w)
  | Some h =>
      match engine_play env (events w) h board with
      | Returns r => (Returns r, log (EvPlay h board true) w)
      | Raises e => (Raises e, log (EvPlay h board false) w)
      end
  end.

(** [engine = chess.engine.SimpleEngine.popen_uci(STOCKFISH_PATH)]: the
    global is assigned only when the call returns. The new process is
    named by the number of calls made before it. *)
Definition popen : M unit := λ w,
  match popen_uci env (events w) with
  | None => (Returns (), set_engine (length (events w)) (log (EvPopen true) w))
  | Some e => (Raises e, log (EvPopen false) w)
  end.

(** [engine.configure({"Threads": 2, "Hash": 128, "Move Overhead": 0})] *)
Definition configure : M unit := λ w,
  match engine w with
  | None => (Raises (AttributeError "'NoneType' object has no attribute"), w)
  | Some h =>
      match engine_configure env (events w) h with
      | None => (Returns (), log (EvConfigure h true) w)
      | Some e => (Raises e, log (EvConfigure h false) w)
      end
  end.

(** Lines 56-70. *)
Definition initialize_engine : M unit :=
  try_except
    (w ← get_world;
     match engine w with
     | Some _ => quit
     | None => mret ()
     end)
    (λ _, mret ());;
  popen;;
  configure.

(** Lines 108-109 and again 112-113: the evaluation of one position. *)
Definition evaluate (board : Board) : M (InfoDict * PlayResult) :=
  result ← analyse board;
  bestmove_result ← play board;
  mret (result, bestmove_result).

(** Lines 106-113. With one request at a time [engine_lock] is free on
    entry and released on every way out, so the block is its body; the
    lock itself is the subject of [Threads]. *)
Definition evaluate_or_recover (board : Board) : M (InfoDict * PlayResult) :=
  try_except (evaluate board) (λ _, initialize_engine;; evaluate board).

(** Lines 115-119. *)
Definition evaluation_of (score : Score) : Z :=
  match score with
  | Mate m => if (0 <? m)%Z then 10000%Z else (-10000)%Z
  | Cp c => c
  end.

(** Lines 128-129. *)
Definition cache_make_room : M unit :=
  w ← get_world;
  if bool_decide (MAX_CACHE_SIZE ≤ length (position_cache w)) then
    c ← lift (cache_evict (position_cache w));
    modify (set_position_cache c)
  else mret ().

(** Lines 99-102. *)
Definition cache_hit (a : Addr) : M Reply :=
  cached ← dict_copy a;
  store_cached cached true;;
  jsonify cached.

(** Lines 104-132. *)
Definition cache_miss (key : string) : M Reply :=
  board ← lift (chess_Board env key);
  '(result, bestmove_result) ← evaluate_or_recover board;
  score ← match info_score result with
          | Some pov => mret (white pov)
          | None => raise (KeyError "'score'")
          end;
  let evaluation := evaluation_of score in
  mv ← match move bestmove_result with
       | Some m => mret (uci m)
       | None =>
           raise (AttributeError "'NoneType' object has no attribute 'uci'")
       end;
  response_data ← alloc {| bestmove := mv; evaluation := evaluation;
                           fen := key; cached := false |};
  cache_make_room;;
  stored ← dict_copy response_data;
  modify (λ w, set_position_cache
                 (dict_set key stored (position_cache w)) w);;
  jsonify response_data.

(** Lines 89-132, the body of the outer [try]. [request] is what
    [request.get_json()] does. The keys of the cache are strings, so a
    hashable value of another type is not in it and goes on to
    [chess.Board], which needs a string. *)
Definition analyze_try (request : outcome JVal) : M Reply :=
  data ← lift request;
  if negb (truthy data) then mret (ReplyError "Invalid JSON" 400)
  else
    fen ← lift (data_get "fen" data);
    if negb (truthy fen) then mret (ReplyError "No FEN provided" 400)
    else
      match fen with
      | JStr key =>
          w ← get_world;
          match dict_get key (position_cache w) with
          | Some a => cache_hit a
          | None => cache_miss key
          end
      | JArr _ | JObj _ => raise (TypeError "unhashable type")
      | _ => raise (AttributeError "object has no attribute 'split'")
      end.

(** Lines 85-135. *)
Definition analyze (request : outcome JVal) (w : World) : Reply * World :=
  match analyze_try request w with
  | (Returns r, w') => (r, w')
  | (Raises e, w') => (ReplyError (str e) 500, w')
  end.

(** Line 72. *)
Definition startup : outcome unit * World := initialize_engine initial_world.

End Handler.

(** ** Reading the trace of engine calls *)

Definition is_popen (ev : Event) : bool :=
  match ev with EvPopen _ => true | _ => false end.

Definition is_quit (ev : Event) : bool :=
  match ev with EvQuit _ _ => true | _ => false end.

Definition is_analyse (ev : Event) : bool :=
  match ev with EvAnalyse _ _ _ => true | _ => false end.

Definition is_play_ok (ev : Event) : bool :=
  match ev with EvPlay _ _ true => true | _ => false end.

Definition count (p : Event → bool) (evs : list Event) : nat :=
  length (filter (λ ev, p ev = true) evs).

(** The restart attempts: starts of a replacement process. *)
Definition restarts (evs : list Event) : nat := count is_popen evs.

(** The terminations of an engine process. *)
Definition terminations (evs : list Event) : nat := count is_quit evs.

(** The evaluate attempts: an attempt opens with [engine.analyse]. *)
Definition evaluate_attempts (evs : list Event) : nat := count is_analyse evs.

(** The evaluations that ran to their end: [engine.play] returned. *)
Definition completed_evaluations (evs : list Event) : nat :=
  count is_play_ok evs.

(** The engine calls made between [w] and a later [w']. *)
Definition new_events (w w' : World) : list Event :=
  drop (length (events w)) (events w').

(** The calls of one evaluate attempt on the process [h] that fails:
    [engine.analyse] raises, or it returns and [engine.play] raises. *)
Definition failed_attempt (h : nat) (board : Board) (evs : list Event)
  : Prop :=
  evs = [EvAnalyse h board false] ∨
  evs = [EvAnalyse h board true; EvPlay h board false].

(** ** Well-formed states *)

(** What holds of the cache whenever a request arrives: a dict has each key
    once, it never holds more than [MAX_CACHE_SIZE] entries, every entry is
    the allocated copy of the response built for its key, and only positions
    [chess.Board] accepted are keys. *)
Record world_ok (env : Env) (w : World) : Prop := {
  ok_keys : NoDup (dict_keys (position_cache w));
  ok_size : length (position_cache w) ≤ MAX_CACHE_SIZE;
  ok_entries : ∀ k a, (k, a) ∈ position_cache w →
    ∃ d, heap w !! a = Some d ∧ fen d = k ∧ cached d = false;
  ok_parsed : ∀ k, k ∈ dict_keys (position_cache w) →
    ∃ b, chess_Board env k = Returns b
}.

(** The position a request carries to the cache lookup of line 99: the
    non-empty string under ["fen"] of a JSON object. *)
Definition position_of (request : outcome JVal) : option string :=
  match request with
  | Returns (JObj members) =>
      match dict_get "fen" members with
      | Some (JStr key) => if String.eqb key "" then None else Some key
      | _ => None
      end
  | _ => None
  end.

(** The requests without a usable position, with the status code the
    handler answers. Status 400, from the two tests of lines 90-96:
    [get_json()] returns a value that is false ([None], [{}], [[]], [""],
    [0], [False]), or an object with no ["fen"] or a ["fen"] that is false.
    Status 500, from an exception caught at line 134: [get_json()] raises; it
    returns a value that is true and is not an object, so that [data.get]
    raises; the ["fen"] is true and is not a string; or it is a string that
    [chess.Board] rejects. *)
Inductive invalid_input (env : Env) : outcome JVal → nat → Prop :=
| input_no_body e :
    invalid_input env (Raises e) 500
| input_empty data :
    truthy data = false →
    invalid_input env (Returns data) 400
| input_not_an_object data :
    truthy data = true →
    (∀ members, data ≠ JObj members) →
    invalid_input env (Returns data) 500
| input_absent members :
    members ≠ [] →
    truthy (default JNull (dict_get "fen" members)) = false →
    invalid_input env (Returns (JObj members)) 400
| input_not_a_string members v :
    dict_get "fen" members = Some v →
    truthy v = true →
    (∀ key, v ≠ JStr key) →
    invalid_input env (Returns (JObj members)) 500
| input_malformed request key e :
    position_of request = Some key →
    chess_Board env key = Raises e →
    invalid_input env request 500.

(** The body [{"fen": key}] of a request. *)
Definition fen_request (key : string) : outcome JVal :=
  Returns (JObj [("fen", JStr key)]).

(** The state after lines 121-130 have run from [w]: the response [d] and
    its copy are allocated, room is made when the cache is full, and the copy
    is stored under [key]. *)
Definition remember (key : string) (d : RespDict) (w : World) : World :=
  {| engine := engine w;
     position_cache :=
       dict_set key (S (length (heap w)))
         (if bool_decide (MAX_CACHE_SIZE ≤ length (position_cache w))
          then tail (position_cache w) else position_cache w);
     heap := heap w ++ [d; d];
     events := events w |}.

(** The state after lines 100-101 have run from [w]: the copy of the cached
    entry [d] is allocated and marked. *)
Definition serve_cached (d : RespDict) (w : World) : World :=
  set_heap (heap w ++ [set_cached true d]) w.

(** ** Scenarios *)

(** [n] puts with pairwise distinct keys ["k0"], ["k1"], ... *)
Definition key_of (i : nat) : string := "k" +:+ pretty i.

Definition distinct_puts (n : nat) : list (string * nat) :=
  (λ i, (key_of i, i)) <$> seq 0 n.

(** A [chess.Board] that rejects the text ["not-a-fen"] and takes any other. *)
Definition parse_board (s : string) : outcome Board :=
  if String.eqb s "not-a-fen" then Raises (LibraryError "invalid fen")
  else Returns {| board_fen := s |}.

(** An engine that answers every call: [score] for the position and the move
    [e2e4]. *)
Definition answering_engine (score : Score) : Env := {|
  chess_Board := parse_board;
  engine_quit := λ _ _, None;
  popen_uci := λ _, None;
  engine_configure := λ _ _, None;
  engine_analyse := λ _ _ _, Returns {| info_score := Some {| white := score |} |};
  engine_play := λ _ _ _, Returns {| move := Some {| uci := "e2e4" |} |}
|}.

(** An engine whose process is gone and cannot be started again. *)
Definition dead_engine : Env := {|
  chess_Board := parse_board;
  engine_quit := λ _ _, Some (LibraryError "engine process died");
  popen_uci := λ _, Some (LibraryError "cannot start the engine");
  engine_configure := λ _ _, None;
  engine_analyse := λ _ _ _, Raises (LibraryError "engine process died");
  engine_play := λ _ _ _, Raises (LibraryError "engine process died")
|}.

(** An engine that starts but never answers an analysis. *)
Definition mute_engine : Env := {|
  chess_Board := parse_board;
  engine_quit := λ _ _, None;
  popen_uci := λ _, None;
  engine_configure := λ _ _, None;
  engine_analyse := λ _ _ _, Raises (LibraryError "engine process died");
  engine_play := λ _ _ _, Raises (LibraryError "engine process died")
|}.

(** An engine whose first process is dead: the analysis fails until a
    replacement has been started, and answers afterwards. *)
Definition restartable_engine : Env := {|
  chess_Board := parse_board;
  engine_quit := λ _ _, Some (LibraryError "engine process died");
  popen_uci := λ _, None;
  engine_configure := λ _ _, None;
  engine_analyse := λ evs _ _,
    if bool_decide (2 ≤ restarts evs)
    then Returns {| info_score := Some {| white := Cp 31 |} |}
    else Raises (LibraryError "engine process died");
  engine_play := λ _ _ _, Returns {| move := Some {| uci := "e2e4" |} |}
|}.

(** The server once line 72 has run against [env]. *)
Definition started (env : Env) : World := (startup env).2.

(** The started server after one analysis of ["startpos"] by an engine that
    answers 31 centipawns. *)
Definition warm_world : World :=
  (analyze (answering_engine (Cp 31)) (fen_request "startpos")
     (started (answering_engine (Cp 31)))).2.

(** ** Concurrent requests: [engine_lock] *)

(** Flask runs the handler on one thread per request ([threaded=True]). The
    program points of one thread on the path of lines 99-132; a thread
    [In_analyse] or [In_play] has an evaluation in flight, that is, it is
    inside [engine.analyse] or [engine.play] (lines 108-109 at the first
    attempt, 112-113 at the retry). *)
Inductive PC :=
| L99_lookup
| L106_acquire
| L108_analyse (first : bool)
| In_analyse (first : bool)
| L109_play (first : bool)
| In_play (first : bool)
| L111_initialize
| L113_exit (ok : bool)
| L115_store
| Done (status : nat).

(** The lock, held by a thread or free, and the program point of every
    thread. *)
Record Threads := {
  engine_lock : option nat;
  pcs : list PC
}.

(** [n] requests have arrived. *)
Definition arrived (n : nat) : Threads :=
  {| engine_lock := None; pcs := replicate n L99_lookup |}.

(** Between [with engine_lock:] and the end of the block. *)
Definition in_block (p : PC) : bool :=
  match p with
  | L108_analyse _ | In_analyse _ | L109_play _ | In_play _
  | L111_initialize | L113_exit _ => true
  | _ => false
  end.

Definition in_flight (p : PC) : bool :=
  match p with
  | In_analyse _ | In_play _ => true
  | _ => false
  end.

(** Where a thread goes next from a point that does not touch the lock;
    [returns] tells whether the operation at that point returns or raises.
    An exception at the first attempt enters the bare [except:] of line 110,
    anywhere else in the block it leaves the block; outside the block it is
    caught at line 134. *)
Definition next (p : PC) (returns : bool) : PC :=
  match p with
  | L99_lookup => if returns then L106_acquire else Done 500
  | L108_analyse first => In_analyse first
  | In_analyse first =>
      if returns then L109_play first
      else if first then L111_initialize else L113_exit false
  | L109_play first => In_play first
  | In_play first =>
      if returns then L113_exit true
      else if first then L111_initialize else L113_exit false
  | L111_initialize => if returns then L108_analyse false else L113_exit false
  | L115_store => if returns then Done 200 else Done 500
  | p => p
  end.

(** One step of thread [t]. [Lock.acquire] at line 106 blocks while the lock
    is held ([None]: the thread cannot move); leaving the block releases the
    lock, on the normal way out to line 115 and with an exception to line
    134. A thread that is done does not move. *)
Definition thread_step (t : nat) (returns : bool) (s : Threads)
  : option Threads :=
  match pcs s !! t with
  | None => None
  | Some L106_acquire =>
      match engine_lock s with
      | None =>
          Some {| engine_lock := Some t;
                  pcs := <[t := L108_analyse true]> (pcs s) |}
      | Some _ => None
      end
  | Some (L113_exit ok) =>
      Some {| engine_lock := None;
              pcs := <[t := if ok then L115_store else Done 500]> (pcs s) |}
  | Some (Done _) => None
  | Some p =>
      Some {| engine_lock := engine_lock s;
              pcs := <[t := next p returns]> (pcs s) |}
  end.

(** An interleaving: which thread moves, and how its operation ends. *)
Fixpoint interleave (schedule : list (nat * bool)) (s : Threads)
  : option Threads :=
  match schedule with
  | [] => Some s
  | (t, returns) :: schedule' =>
      match thread_step t returns s with
      | Some s' => interleave schedule' s'
      | None => None
      end
  end.

(** What the lock protects: a thread is in the block exactly when it holds
    the lock. *)
Definition lock_inv (s : Threads) : Prop :=
  ∀ t p, pcs s !! t = Some p → (in_block p = true ↔ engine_lock s = Some t).

(** An engine that answers without a score. *)
Definition scoreless_engine : Env := {|
  chess_Board := parse_board;
  engine_quit := λ _ _, None;
  popen_uci := λ _, None;
  engine_configure := λ _ _, None;
  engine_analyse := λ _ _ _, Returns {| info_score := None |};
  engine_play := λ _ _ _, Returns {| move := Some {| uci := "e2e4" |} |}
|}.

(** ** The rest of the module *)

(** Lines 74-80, registered with [atexit]. *)
Definition cleanup (env : Env) : M unit :=
  w ← get_world;
  match engine w with
  | Some _ => try_except (quit env) (λ _, mret ())
  | None => mret ()
  end.

(** What the best-effort [engine.quit()] of lines 58-62 and 76-80 adds to
    the trace: nothing when [engine] is [None], else the call with whether it
    returned. *)
Definition quit_events (env : Env) (w : World) : list Event :=
  match engine w with
  | Some h =>
      [EvQuit h (match engine_quit env (events w) h with
                 | None => true
                 | Some _ => false
                 end)]
  | None => []
  end.

(** The requests of a run, served one after the other. *)
Fixpoint serve (env : Env) (requests : list (outcome JVal)) (w : World)
  : World :=
  match requests with
  | [] => w
  | request :: requests' => serve env requests' (analyze env request w).2
  end.




(** The two tests of lines 90 and 95: the body is missing or empty, or it
    has no ["fen"] or an empty one. *)
Definition is_bad_request (request : outcome JVal) : bool :=
  match request with
  | Returns data =>
      negb (truthy data) ||
      match data with
      | JObj members => negb (truthy (default JNull (dict_get "fen" members)))
      | _ => false
      end
  | Raises _ => false
  end.

(** Every [engine.play] of the trace comes right after an [engine.analyse]
    that returned, for the same board on the same process. *)
Definition plays_follow_analyse (evs : list Event) : Prop :=
  ∀ i h b ok, evs !! i = Some (EvPlay h b ok) →
    ∃ j, i = S j ∧ evs !! j = Some (EvAnalyse h b true).

(** The process [engine] refers to was started by a call of the trace. *)
Definition engine_known (w : World) : Prop :=
  ∀ h, engine w = Some h → h < length (events w).

(** Whoever holds the lock is a thread inside the block. *)
Definition holder_in_block (s : Threads) : Prop :=
  ∀ t, engine_lock s = Some t →
    ∃ p, pcs s !! t = Some p ∧ in_block p = true.

(** How far a thread is from the end of the handler. *)
Definition rank (p : PC) : nat :=
  match p with
  | L99_lookup => 13
  | L106_acquire => 12
  | L108_analyse true => 11
  | In_analyse true => 10
  | L109_play true => 9
  | In_play true => 8
  | L111_initialize => 7
  | L108_analyse false => 6
  | In_analyse false => 5
  | L109_play false => 4
  | In_play false => 3
  | L113_exit _ => 2
  | L115_store => 1
  | Done _ => 0
  end.

(** The steps all threads together have left, at most. *)
Definition total_rank (s : Threads) : nat := sum_list_with rank (pcs s).

Definition is_done (p : PC) : bool :=
  match p with Done _ => true | _ => false end.

(** ** Concurrent requests: [position_cache] *)

(** Lines 99-100 and 128-130 run outside [engine_lock], so what the threads
    do to [position_cache] interleaves. One operation on the dict is one
    step; a statement made of several operations is several steps. A program
    point is named by the operation the thread is about to run: the test
    [fen in position_cache], the read [position_cache[fen]], the test of
    [len(position_cache)], [next(iter(position_cache))], the [pop] of the key
    that gave, and the write of line 130; [next(iter(position_cache))] is
    taken as one operation. Lines 104-126 do not touch the dict and are part
    of the step that leaves line 99. No entry is written to once
    it is in the cache, so the cache holds here what the dicts contain in
    place of their addresses. *)
Inductive CachePC :=
| C99_contains
| C100_getitem
| C128_len (response_data : RespDict)
| C129_first (response_data : RespDict)
| C129_pop (response_data : RespDict) (k0 : string)
| C130_setitem (response_data : RespDict)
| CDone (reply : outcome RespDict).

(** A request on its thread: the position it asks for, what lines 104-119
    give for it when they are reached (the move and the evaluation, or an
    exception), and where the thread is. *)
Record CacheThread := {
  t_fen : string;
  t_evaluated : outcome (string * Z);
  t_pc : CachePC
}.

Record CacheRace := {
  shared_cache : list (string * RespDict);
  cache_threads : list CacheThread
}.

Definition at_pc (th : CacheThread) (p : CachePC) : CacheThread :=
  {| t_fen := t_fen th; t_evaluated := t_evaluated th; t_pc := p |}.

(** The requests have arrived, the cache holds [c]. *)
Definition race_arrived (c : list (string * RespDict))
    (requests : list (string * outcome (string * Z))) : CacheRace :=
  {| shared_cache := c;
     cache_threads :=
       map (λ r, {| t_fen := r.1; t_evaluated := r.2; t_pc := C99_contains |})
           requests |}.

(** Lines 121-126: [response_data] for the position [key], from the move
    and the evaluation. *)
Definition response_of (key : string) (x : string * Z) : RespDict :=
  {| bestmove := x.1; evaluation := x.2; fen := key; cached := false |}.

(** What the operation at the program point of [th] does to the cache [c],
    and where the thread is after it; [None] when the thread is done. An
    exception ends the request at line 134. [KeyError] carries the key. *)
Definition cache_op (th : CacheThread) (c : list (string * RespDict))
  : option (CachePC * list (string * RespDict)) :=
  match t_pc th with
  | C99_contains =>
      match dict_get (t_fen th) c with
      | Some _ => Some (C100_getitem, c)
      | None =>
          match t_evaluated th with
          | Returns x => Some (C128_len (response_of (t_fen th) x), c)
          | Raises e => Some (CDone (Raises e), c)
          end
      end
  | C100_getitem =>
      match dict_get (t_fen th) c with
      | Some d => Some (CDone (Returns (set_cached true d)), c)
      | None => Some (CDone (Raises (KeyError (t_fen th))), c)
      end
  | C128_len response_data =>
      if bool_decide (MAX_CACHE_SIZE ≤ length c)
      then Some (C129_first response_data, c)
      else Some (C130_setitem response_data, c)
  | C129_first response_data =>
      match dict_first c with
      | Some k0 => Some (C129_pop response_data k0, c)
      | None => Some (CDone (Raises StopIteration), c)
      end
  | C129_pop response_data k0 =>
      match dict_pop k0 c with
      | Some (_, c') => Some (C130_setitem response_data, c')
      | None => Some (CDone (Raises (KeyError k0)), c)
      end
  | C130_setitem response_data =>
      Some (CDone (Returns response_data),
            dict_set (t_fen th) response_data c)
  | CDone _ => None
  end.

(** One step of thread [t]. *)
Definition cache_step (t : nat) (s : CacheRace) : option CacheRace :=
  match cache_threads s !! t with
  | None => None
  | Some th =>
      match cache_op th (shared_cache s) with
      | None => None
      | Some (p, c) =>
          Some {| shared_cache := c;
                  cache_threads := <[t := at_pc th p]> (cache_threads s) |}
      end
  end.

(** An interleaving: which thread runs its next operation. *)
Fixpoint cache_interleave (schedule : list nat) (s : CacheRace)
  : option CacheRace :=
  match schedule with
  | [] => Some s
  | t :: schedule' =>
      match cache_step t s with
      | Some s' => cache_interleave schedule' s'
      | None => None
      end
  end.

(** Thread [t] runs alone for as long as it can, for [fuel] steps at most. *)
Fixpoint cache_run (fuel : nat) (t : nat) (s : CacheRace) : CacheRace :=
  match fuel with
  | 0 => s
  | S fuel' =>
      match cache_step t s with
      | Some s' => cache_run fuel' t s'
      | None => s
      end
  end.

(** The reply of thread [t], once it has one. *)
Definition reply_of (t : nat) (s : CacheRace) : option (outcome RespDict) :=
  match cache_threads s !! t with
  | Some th => match t_pc th with CDone reply => Some reply | _ => None end
  | None => None
  end.

(** Every entry is filed under the position it is about and has the flag
    line 125 gave it. *)
Definition entries_sound (c : list (string * RespDict)) : Prop :=
  ∀ k d, (k, d) ∈ c → fen d = k ∧ cached d = false.

(** Where an entry for the position [k] can come from: the cache [c0] the
    requests found, or what one of the requests for [k] evaluated. *)
Definition entry_from (c0 : list (string * RespDict))
    (requests : list (string * outcome (string * Z)))
    (k : string) (d : RespDict) : Prop :=
  (k, d) ∈ c0 ∨
  ∃ t x, requests !! t = Some (k, Returns x) ∧ d = response_of k x.

(** What a thread holds is about its own position: between line 126 and
    line 130 its own evaluation, in a reply that or the copy of an entry
    for its position. *)
Definition thread_sound (c0 : list (string * RespDict))
    (requests : list (string * outcome (string * Z)))
    (th : CacheThread) : Prop :=
  match t_pc th with
  | C128_len r | C129_first r | C129_pop r _ | C130_setitem r =>
      ∃ x, t_evaluated th = Returns x ∧ r = response_of (t_fen th) x
  | CDone (Returns r) =>
      (∃ d, entry_from c0 requests (t_fen th) d ∧ r = set_cached true d) ∨
      (∃ x, t_evaluated th = Returns x ∧ r = response_of (t_fen th) x)
  | _ => True
  end.

(** The request a thread serves. *)
Definition request_of (th : CacheThread) : string * outcome (string * Z) :=
  (t_fen th, t_evaluated th).

(** What holds of the cache and of the threads in every interleaving. *)
Definition race_inv (c0 : list (string * RespDict))
    (requests : list (string * outcome (string * Z)))
    (s : CacheRace) : Prop :=
  request_of <$> cache_threads s = requests ∧
  NoDup (dict_keys (shared_cache s)) ∧
  (∀ k d, (k, d) ∈ shared_cache s → entry_from c0 requests k d) ∧
  (∀ t th, cache_threads s !! t = Some th → thread_sound c0 requests th).


(** A cache of [n] results, for the positions ["k0"], ["k1"], ... *)
Definition filled_cache (n : nat) : list (string * RespDict) :=
  (λ i, (key_of i, response_of (key_of i) ("e2e4", Z.of_nat i))) <$> seq 0 n.

(** The writes of line 130 that are due: the threads that have passed lines
    128-129 and are about to run line 130. *)
Definition write_due (th : CacheThread) : nat :=
  match t_pc th with C130_setitem _ => 1 | _ => 0 end.

(** * Properties *)

(** ** The dictionary *)

Section OrderedDictFacts.
Context {V : Type}.
Implicit Types (d : list (string * V)) (k : string) (v : V).

Lemma dict_get_None k d : dict_get k d = None ↔ k ∉ dict_keys d.
Proof.
  unfold dict_keys. induction d as [|[k' v] d IH]; simpl.
  - split; [intros _; apply not_elem_of_nil | done].
  - case_decide as Hk; subst.
    + split; [done | intros []; left].
    + rewrite not_elem_of_cons. split; [intros ?; split; [congruence | by apply IH] | intros [_ ?]; by apply IH].
Qed.

Lemma dict_get_Some_elem k v d : dict_get k d = Some v → (k, v) ∈ d.
Proof.
  induction d as [|[k' v'] d IH]; simpl; [done|].
  case_decide; subst.
  - intros [= ->]. left.
  - intros. right. auto.
Qed.

Lemma dict_get_is_Some k d : is_Some (dict_get k d) ↔ k ∈ dict_keys d.
Proof.
  rewrite <-not_eq_None_Some, dict_get_None.
  split; [apply dec_stable | auto].
Qed.

Lemma dict_set_keys_present k v d :
  k ∈ dict_keys d → dict_keys (dict_set k v d) = dict_keys d.
Proof.
  unfold dict_keys. induction d as [|[k' v'] d IH]; simpl.
  - intros H. by apply elem_of_nil in H.
  - case_decide; subst; simpl; [done|].
    rewrite elem_of_cons. intros [?|?]; [congruence|]. f_equal. auto.
Qed.

Lemma dict_set_keys_absent k v d :
  k ∉ dict_keys d → dict_keys (dict_set k v d) = dict_keys d ++ [k].
Proof.
  unfold dict_keys. induction d as [|[k' v'] d IH]; simpl; [done|].
  rewrite not_elem_of_cons. intros [? ?].
  case_decide; subst; simpl; [done|]. f_equal. auto.
Qed.

Lemma dict_set_absent k v d :
  k ∉ dict_keys d → dict_set k v d = d ++ [(k, v)].
Proof.
  unfold dict_keys. induction d as [|[k' v'] d IH]; simpl; [done|].
  rewrite not_elem_of_cons. intros [? ?].
  case_decide; subst; simpl; [done|]. f_equal. auto.
Qed.

Lemma dict_set_length_present k v d :
  k ∈ dict_keys d → length (dict_set k v d) = length d.
Proof.
  intros H. apply (dict_set_keys_present k v) in H.
  unfold dict_keys in H.
  by rewrite <-(length_fmap fst (dict_set k v d)), H, length_fmap.
Qed.

Lemma dict_set_length_absent k v d :
  k ∉ dict_keys d → length (dict_set k v d) = S (length d).
Proof.
  intros H. rewrite dict_set_absent by done. rewrite length_app. simpl. lia.
Qed.

Lemma dict_set_length_bounds k v d :
  length d ≤ length (dict_set k v d) ≤ S (length d).
Proof.
  destruct (decide (k ∈ dict_keys d)).
  - rewrite dict_set_length_present by done. lia.
  - rewrite dict_set_length_absent by done. lia.
Qed.

Lemma dict_get_set_eq k v d : dict_get k (dict_set k v d) = Some v.
Proof.
  induction d as [|[k' v'] d IH]; simpl.
  - by rewrite decide_True.
  - case_decide; subst; simpl.
    + by rewrite decide_True.
    + by rewrite decide_False.
Qed.

Lemma dict_get_set_ne k k' v d :
  k ≠ k' → dict_get k' (dict_set k v d) = dict_get k' d.
Proof.
  intros Hne. induction d as [|[k0 v0] d IH]; simpl.
  - by rewrite decide_False.
  - case_decide; subst; simpl.
    + by rewrite !decide_False.
    + case_decide; auto.
Qed.

Lemma dict_set_keys_NoDup k v d :
  NoDup (dict_keys d) → NoDup (dict_keys (dict_set k v d)).
Proof.
  intros Hnd. destruct (decide (k ∈ dict_keys d)).
  - by rewrite dict_set_keys_present.
  - rewrite dict_set_keys_absent by done.
    apply NoDup_app. split_and!; [done | | apply NoDup_singleton].
    intros x Hx ->%list_elem_of_singleton. done.
Qed.

(** Popping the key that [dict_first] returned removes the head entry. *)
Lemma dict_pop_first k d :
  dict_first d = Some k → ∃ v, dict_pop k d = Some (v, tail d).
Proof.
  destruct d as [|[k' v] d]; simpl; [done|].
  intros [= ->]. exists v. by rewrite decide_True.
Qed.

Lemma dict_first_is_Some d : 0 < length d → is_Some (dict_first d).
Proof. destruct d as [|[k v] d]; simpl; [lia | eauto]. Qed.

Lemma dict_keys_tail d : dict_keys (tail d) = tail (dict_keys d).
Proof. by destruct d. Qed.

End OrderedDictFacts.

(** ** The result cache *)

Section ResultCacheFacts.
Context {V : Type}.
Implicit Types (d ops : list (string * V)) (k : string) (v : V).

Lemma MAX_CACHE_SIZE_pos : 0 < MAX_CACHE_SIZE.
Proof. unfold MAX_CACHE_SIZE. lia. Qed.

Lemma cache_evict_nonempty d :
  0 < length d → cache_evict d = Returns (tail d).
Proof.
  destruct d as [|[k v] d]; simpl; [lia|]. intros _.
  unfold cache_evict. simpl. by rewrite decide_True.
Qed.

Lemma cache_put_full k v d :
  MAX_CACHE_SIZE ≤ length d →
  cache_put k v d = Returns (dict_set k v (tail d)).
Proof.
  intros Hfull. unfold cache_put. rewrite bool_decide_eq_true_2 by done.
  rewrite cache_evict_nonempty; [done|].
  pose proof MAX_CACHE_SIZE_pos. lia.
Qed.

Lemma cache_put_room k v d :
  length d < MAX_CACHE_SIZE → cache_put k v d = Returns (dict_set k v d).
Proof.
  intros Hroom. unfold cache_put. rewrite bool_decide_eq_false_2; [done|lia].
Qed.

Lemma cache_put_cases k v d :
  (MAX_CACHE_SIZE ≤ length d ∧
     cache_put k v d = Returns (dict_set k v (tail d))) ∨
  (length d < MAX_CACHE_SIZE ∧ cache_put k v d = Returns (dict_set k v d)).
Proof.
  destruct (decide (MAX_CACHE_SIZE ≤ length d)).
  - left. split; [done|]. by apply cache_put_full.
  - right. split; [lia|]. apply cache_put_room. lia.
Qed.

Lemma length_tail (d : list (string * V)) : length (tail d) = length d - 1.
Proof. destruct d; simpl; lia. Qed.

Lemma tail_drop (l : list (string * V)) n : tail (drop n l) = drop (S n) l.
Proof.
  revert n. induction l as [|x l IH]; intros [|n]; simpl; done.
Qed.

Lemma cache_put_bounded k v d d' :
  length d ≤ MAX_CACHE_SIZE → cache_put k v d = Returns d' →
  length d' ≤ MAX_CACHE_SIZE.
Proof.
  intros Hle Hput. pose proof MAX_CACHE_SIZE_pos.
  destruct (cache_put_cases k v d) as [[Hfull E]|[Hroom E]];
    rewrite E in Hput; injection Hput as <-.
  - pose proof (dict_set_length_bounds k v (tail d)) as Hb.
    rewrite length_tail in Hb. lia.
  - pose proof (dict_set_length_bounds k v d). lia.
Qed.

Lemma cache_put_keys_NoDup k v d d' :
  NoDup (dict_keys d) → cache_put k v d = Returns d' → NoDup (dict_keys d').
Proof.
  intros Hnd Hput.
  destruct (cache_put_cases k v d) as [[_ E]|[_ E]];
    rewrite E in Hput; injection Hput as <-;
    apply dict_set_keys_NoDup; [|done].
  rewrite dict_keys_tail. destruct (dict_keys d); simpl; [done|].
  by apply NoDup_cons in Hnd as [_ ?].
Qed.

Lemma run_puts_app ops1 ops2 d :
  run_puts (ops1 ++ ops2) d =
  match run_puts ops1 d with
  | Returns d' => run_puts ops2 d'
  | Raises e => Raises e
  end.
Proof.
  revert d. induction ops1 as [|[k v] ops1 IH]; intros d; simpl; [done|].
  destruct (cache_put k v d); [apply IH | done].
Qed.

Lemma run_puts_bounded ops : ∀ d,
  length d ≤ MAX_CACHE_SIZE →
  ∃ d', run_puts ops d = Returns d' ∧ length d' ≤ MAX_CACHE_SIZE.
Proof.
  induction ops as [|[k v] ops IH]; intros d Hle; simpl; [eauto|].
  destruct (cache_put_cases k v d) as [[_ E]|[_ E]]; rewrite E;
    apply IH; eapply cache_put_bounded; eauto.
Qed.

(** With pairwise distinct keys the cache is the last [MAX_CACHE_SIZE]
    puts, in the order they were made: each put beyond the capacity drops
    the oldest entry. *)
Lemma run_puts_distinct ops :
  NoDup ops.*1 →
  run_puts ops [] = Returns (drop (length ops - MAX_CACHE_SIZE) ops).
Proof.
  induction ops as [|[k v] ops IH] using rev_ind; intros Hnd; [done|].
  rewrite fmap_app in Hnd. apply NoDup_app in Hnd as (Hnd & Hfresh & _).
  rewrite run_puts_app, IH by done. simpl.
  assert (k ∉ dict_keys (drop (length ops - MAX_CACHE_SIZE) ops)) as Hk.
  { unfold dict_keys. rewrite fmap_drop. intros Hin.
    apply (Hfresh k).
    - by eapply subseteq_drop.
    - simpl. left. }
  rewrite length_app. simpl.
  destruct (cache_put_cases k v (drop (length ops - MAX_CACHE_SIZE) ops))
    as [[Hfull E]|[Hroom E]]; rewrite E; f_equal.
  - rewrite length_drop in Hfull.
    assert (k ∉ dict_keys (tail (drop (length ops - MAX_CACHE_SIZE) ops)))
      as Hk'.
    { rewrite dict_keys_tail. intros Hin. apply Hk.
      destruct (dict_keys (drop (length ops - MAX_CACHE_SIZE) ops));
        [done | by right]. }
    rewrite dict_set_absent by done.
    pose proof MAX_CACHE_SIZE_pos.
    rewrite tail_drop.
    replace (length ops + 1 - MAX_CACHE_SIZE)
      with (S (length ops - MAX_CACHE_SIZE)) by lia.
    by rewrite drop_app_le by lia.
  - rewrite length_drop in Hroom.
    rewrite dict_set_absent by done.
    replace (length ops - MAX_CACHE_SIZE) with 0 by lia.
    replace (length ops + 1 - MAX_CACHE_SIZE) with 0 by lia.
    by rewrite !drop_0.
Qed.

End ResultCacheFacts.

(** ** Counting engine calls *)

Lemma count_nil p : count p [] = 0.
Proof. done. Qed.

Lemma count_app p evs1 evs2 : count p (evs1 ++ evs2) = count p evs1 + count p evs2.
Proof. unfold count. by rewrite filter_app, length_app. Qed.

Lemma count_singleton p ev : count p [ev] = if p ev then 1 else 0.
Proof. unfold count. rewrite filter_cons, filter_nil. by destruct (p ev). Qed.

Lemma new_events_app w w' evs :
  events w' = events w ++ evs → new_events w w' = evs.
Proof. intros E. unfold new_events. by rewrite E, drop_app_length. Qed.

(** ** The engine calls leave the cache and the heap alone *)

(** [m] only talks to the engine: from any state it leaves the cache and the
    heap as they are and adds [evs] to the trace, where [evs] satisfies [P]
    together with the result. *)
Definition engine_only {A} (m : M A)
    (P : World → outcome A → list Event → Prop) : Prop :=
  ∀ w, ∃ evs,
    position_cache (m w).2 = position_cache w ∧
    heap (m w).2 = heap w ∧
    events (m w).2 = events w ++ evs ∧
    P w (m w).1 evs.

Lemma engine_only_weaken {A} (m : M A) (P Q : World → outcome A → list Event → Prop) :
  engine_only m P → (∀ w o evs, P w o evs → Q w o evs) → engine_only m Q.
Proof.
  intros Hm HPQ w. destruct (Hm w) as (evs & ? & ? & ? & ?). exists evs. eauto.
Qed.

Section EngineCalls.
Context (env : Env).

(** A summary of [evs]: at most [r] restart attempts, [t] terminations and
    [a] evaluate attempts, and [c] completed evaluations when the computation
    returns, [c'] when it raises. *)
Definition within (r t a c c' : nat) {A} : World → outcome A → list Event → Prop :=
  λ _ o evs,
    restarts evs ≤ r ∧ terminations evs ≤ t ∧ evaluate_attempts evs ≤ a ∧
    completed_evaluations evs = match o with Returns _ => c | Raises _ => c' end.

Lemma engine_only_ret {A} (a : A) c' : engine_only (mret a) (within 0 0 0 0 c').
Proof. intros w. exists []. simpl. by rewrite app_nil_r. Qed.

Lemma engine_only_bind {A B} (m : M A) (f : A → M B)
    r1 t1 a1 c1 c1' r2 t2 a2 c2 c2' :
  engine_only m (within r1 t1 a1 c1 c1') →
  (∀ x, engine_only (f x) (within r2 t2 a2 c2 c2')) →
  c1' = c1 + c2' →
  engine_only (m ≫= f) (within (r1 + r2) (t1 + t2) (a1 + a2) (c1 + c2) c1').
Proof.
  intros Hm Hf -> w.
  destruct (Hm w) as (evs1 & Hc & Hh & He & Hr1 & Ht1 & Ha1 & Hk1).
  unfold mbind, M_bind. destruct (m w) as [[x|e] w1]; simpl in *.
  - destruct (Hf x w1) as (evs2 & Hc2 & Hh2 & He2 & Hr2 & Ht2 & Ha2 & Hk2).
    exists (evs1 ++ evs2). rewrite Hc2, Hh2, He2, He, Hc, Hh, (assoc_L (++)).
    unfold within, restarts, terminations, evaluate_attempts,
      completed_evaluations in *.
    rewrite !count_app, Hk1, Hk2.
    split_and!; try done; try lia. by destruct (f x w1).1.
  - exists evs1. unfold within in *. split_and!; try done; lia.
Qed.

Lemma engine_only_try {A} (m : M A) (handler : PyExn → M A)
    r1 t1 a1 c1 c1' r2 t2 a2 c2 c2' :
  engine_only m (within r1 t1 a1 c1 c1') →
  (∀ e, engine_only (handler e) (within r2 t2 a2 c2 c2')) →
  c1 = c1' + c2 →
  engine_only (try_except m handler)
    (within (r1 + r2) (t1 + t2) (a1 + a2) c1 (c1' + c2')).
Proof.
  intros Hm Hf -> w.
  destruct (Hm w) as (evs1 & Hc & Hh & He & Hr1 & Ht1 & Ha1 & Hk1).
  unfold try_except. destruct (m w) as [[x|e] w1]; simpl in *.
  - exists evs1. unfold within in *. split_and!; try done; lia.
  - destruct (Hf e w1) as (evs2 & Hc2 & Hh2 & He2 & Hr2 & Ht2 & Ha2 & Hk2).
    exists (evs1 ++ evs2). rewrite Hc2, Hh2, He2, He, Hc, Hh, (assoc_L (++)).
    unfold within, restarts, terminations, evaluate_attempts,
      completed_evaluations in *.
    rewrite !count_app, Hk1, Hk2.
    split_and!; try done; try lia. by destruct (handler e w1).1.
Qed.

(** Closes a goal about one call: the events it adds are the list given. *)
Ltac one_call := split_and!; try done; cbv; lia.

Lemma quit_engine_only : engine_only (quit env) (within 0 1 0 0 0).
Proof.
  intros w. unfold quit. destruct (engine w) as [h|]; simpl.
  - destruct (engine_quit env (events w) h); simpl; eexists [_]; one_call.
  - exists []. rewrite app_nil_r. one_call.
Qed.

Lemma popen_engine_only : engine_only (popen env) (within 1 0 0 0 0).
Proof.
  intros w. unfold popen.
  destruct (popen_uci env (events w)); simpl; eexists [_]; one_call.
Qed.

Lemma configure_engine_only : engine_only (configure env) (within 0 0 0 0 0).
Proof.
  intros w. unfold configure. destruct (engine w) as [h|]; simpl.
  - destruct (engine_configure env (events w) h); simpl; eexists [_]; one_call.
  - exists []. rewrite app_nil_r. one_call.
Qed.

Lemma initialize_engine_engine_only :
  engine_only (initialize_engine env) (within 1 1 0 0 0).
Proof.
  unfold initialize_engine.
  apply (engine_only_bind _ _ 0 1 0 0 0 1 0 0 0 0); [| |done].
  - apply (engine_only_try _ _ 0 1 0 0 0 0 0 0 0 0); [| |done].
    + intros w. unfold mbind, M_bind, get_world.
      destruct (engine w); [apply quit_engine_only|].
      exists []. rewrite app_nil_r. one_call.
    + intros; apply engine_only_ret.
  - intros _. apply (engine_only_bind _ _ 1 0 0 0 0 0 0 0 0 0); [| |done].
    + apply popen_engine_only.
    + intros _. apply configure_engine_only.
Qed.

(** One evaluation: what it returns, and the two calls it adds. *)
Lemma evaluate_Returns board w x w' :
  evaluate env board w = (Returns x, w') →
  ∃ h, engine w = Some h ∧
    engine_analyse env (events w) h board = Returns x.1 ∧
    engine_play env (events w ++ [EvAnalyse h board true]) h board = Returns x.2 ∧
    w' = log (EvPlay h board true) (log (EvAnalyse h board true) w).
Proof.
  unfold evaluate, mbind, M_bind, analyse, play.
  destruct (engine w) as [h|] eqn:Hh; [|done].
  destruct (engine_analyse env (events w) h board) as [info|] eqn:Ha; [|done].
  simpl. rewrite Hh.
  destruct (engine_play env _ h board) as [pr|] eqn:Hp; [|done].
  unfold mret, M_ret. intros [= <- <-]. exists h. done.
Qed.

Lemma evaluate_engine_only board :
  engine_only (evaluate env board) (within 0 0 1 1 0).
Proof.
  intros w. unfold evaluate, mbind, M_bind, analyse, play.
  destruct (engine w) as [h|] eqn:Hh; simpl.
  - destruct (engine_analyse env (events w) h board) as [info|]; simpl.
    + rewrite Hh.
      destruct (engine_play env _ h board) as [pr|]; simpl;
        eexists [_; _]; rewrite <-(assoc_L (++)); one_call.
    + eexists [_]; one_call.
  - exists []. rewrite app_nil_r. one_call.
Qed.

(** The [with engine_lock] block: at most one restart attempt, one
    termination and two evaluate attempts, whatever the engine does; one
    evaluation has run to its end when the block returns, none when it
    raises. *)
Lemma evaluate_or_recover_engine_only board :
  engine_only (evaluate_or_recover env board) (within 1 1 2 1 0).
Proof.
  unfold evaluate_or_recover.
  apply (engine_only_try _ _ 0 0 1 1 0 1 1 1 1 0); [| |done].
  - apply evaluate_engine_only.
  - intros _. apply (engine_only_bind _ _ 1 1 0 0 0 0 0 1 1 0); [| |done].
    + apply initialize_engine_engine_only.
    + intros _. apply evaluate_engine_only.
Qed.

End EngineCalls.

(** ** The handler, path by path *)

Section Paths.
Context (env : Env).

Lemma truthy_JStr key : truthy (JStr key) = true ↔ key ≠ "".
Proof.
  simpl. rewrite negb_true_iff. split.
  - intros H ->. by rewrite String.eqb_refl in H.
  - intros H. by apply String.eqb_neq.
Qed.

(** Lines 100-102 on an allocated entry. *)
Lemma cache_hit_allocated a d w :
  heap w !! a = Some d →
  cache_hit a w =
    (Returns (ReplyJson (length (heap w)) (set_cached true d)),
     serve_cached d w).
Proof.
  intros Ha. unfold cache_hit, dict_copy, store_cached, jsonify, heap_read,
    alloc, modify, serve_cached, set_heap, mbind, M_bind, mret, M_ret.
  rewrite Ha. simpl.
  rewrite (list_lookup_middle (heap w) [] d (length (heap w))) by done. simpl.
  rewrite (insert_app_r_alt (heap w) [d] (length (heap w))) by done.
  rewrite Nat.sub_diag. simpl.
  rewrite (list_lookup_middle (heap w) [] _ (length (heap w))) by done.
  done.
Qed.

(** Lines 128-129. *)
Lemma cache_make_room_eq w :
  cache_make_room w =
    (Returns (),
     set_position_cache
       (if bool_decide (MAX_CACHE_SIZE ≤ length (position_cache w))
        then tail (position_cache w) else position_cache w) w).
Proof.
  unfold cache_make_room, get_world, mbind, M_bind, lift, modify. simpl.
  case_bool_decide as Hfull; [|by destruct w].
  rewrite cache_evict_nonempty; [done|].
  pose proof MAX_CACHE_SIZE_pos. lia.
Qed.

(** Lines 104-132: the miss path, stage by stage. *)
Lemma cache_miss_eq key w :
  cache_miss env key w =
    match chess_Board env key with
    | Raises e => (Raises e, w)
    | Returns board =>
        match evaluate_or_recover env board w with
        | (Raises e, w1) => (Raises e, w1)
        | (Returns (result, bestmove_result), w1) =>
            match info_score result with
            | None => (Raises (KeyError "'score'"), w1)
            | Some pov =>
                match move bestmove_result with
                | None =>
                    (Raises (AttributeError
                               "'NoneType' object has no attribute 'uci'"), w1)
                | Some m =>
                    let d := {| bestmove := uci m;
                                evaluation := evaluation_of (white pov);
                                fen := key; cached := false |} in
                    (Returns (ReplyJson (length (heap w1)) d), remember key d w1)
                end
            end
        end
    end.
Proof.
  unfold cache_miss. unfold mbind at 1, M_bind at 1, lift.
  destruct (chess_Board env key) as [board|e]; [|done].
  unfold mbind at 1, M_bind at 1.
  destruct (evaluate_or_recover env board w) as [[[result bestmove_result]|e] w1];
    [|done].
  unfold mbind at 1, M_bind at 1.
  destruct (info_score result) as [pov|]; [|done]. simpl.
  unfold mbind at 1, M_bind at 1.
  destruct (move bestmove_result) as [m|]; [|done]. simpl.
  unfold mbind, M_bind, alloc, dict_copy, heap_read, jsonify, modify,
    mbind, M_bind at 1. simpl.
  rewrite cache_make_room_eq. simpl.
  set (d := {| bestmove := uci m; evaluation := evaluation_of (white pov);
               fen := key; cached := false |}).
  rewrite (list_lookup_middle (heap w1) [] d (length (heap w1))) by done.
  simpl. rewrite length_app. simpl.
  rewrite <-(assoc_L (++)). simpl.
  unfold M_bind, heap_read, jsonify. simpl.
  rewrite (list_lookup_middle (heap w1) [d] d (length (heap w1))) by done.
  unfold remember, mret, M_ret, set_position_cache, set_heap. simpl.
  by rewrite Nat.add_1_r.
Qed.

(** A request that carries a non-empty string goes to the cache. *)
Lemma analyze_try_fen key w :
  key ≠ "" →
  analyze_try env (fen_request key) w =
    match dict_get key (position_cache w) with
    | Some a => cache_hit a w
    | None => cache_miss env key w
    end.
Proof.
  intros Hkey%truthy_JStr. unfold analyze_try, fen_request.
  unfold mbind at 1, M_bind at 1, lift. simpl.
  unfold mbind at 1, M_bind at 1, lift. simpl in *. rewrite Hkey. simpl.
  unfold mbind, M_bind, get_world. by destruct (dict_get key (position_cache w)).
Qed.

End Paths.

(** ** Well-formed states are preserved *)

Section Invariant.
Context (env : Env).

Lemma dict_set_elem {V} k (v : V) d x :
  x ∈ dict_set k v d → x = (k, v) ∨ x ∈ d.
Proof.
  induction d as [|[k' v'] d IH]; simpl.
  - intros ->%list_elem_of_singleton. by left.
  - case_decide; subst; rewrite !elem_of_cons; intros [?|?]; auto.
    destruct IH; auto.
Qed.

Lemma elem_of_tail {A} (x : A) l : x ∈ tail l → x ∈ l.
Proof. destruct l; simpl; [done | by right]. Qed.

Lemma dict_keys_elem {V} k (d : list (string * V)) :
  k ∈ dict_keys d ↔ ∃ v, (k, v) ∈ d.
Proof.
  unfold dict_keys. rewrite list_elem_of_fmap. split.
  - intros ([k' v] & -> & ?). eauto.
  - intros [v ?]. by exists (k, v).
Qed.

(** Lines 128-130 keep the cache within its capacity. *)
Lemma make_room_set_bounded {V} k (v : V) d :
  length d ≤ MAX_CACHE_SIZE →
  length (dict_set k v (if bool_decide (MAX_CACHE_SIZE ≤ length d)
                        then tail d else d)) ≤ MAX_CACHE_SIZE.
Proof.
  intros Hle. eapply (cache_put_bounded k v d); [done|].
  unfold cache_put. case_bool_decide; [|done].
  rewrite cache_evict_nonempty; [done|]. pose proof MAX_CACHE_SIZE_pos. lia.
Qed.

Lemma world_ok_initial : world_ok env initial_world.
Proof.
  split; simpl.
  - apply NoDup_nil_2.
  - lia.
  - intros k a H. by apply elem_of_nil in H.
  - intros k H. by apply elem_of_nil in H.
Qed.

(** Engine calls change neither the cache nor the heap. *)
Lemma world_ok_engine_only w w' :
  position_cache w' = position_cache w → heap w' = heap w →
  world_ok env w → world_ok env w'.
Proof. intros Hc Hh [????]. split; rewrite ?Hc, ?Hh; done. Qed.

Lemma world_ok_serve_cached d w :
  world_ok env w → world_ok env (serve_cached d w).
Proof.
  intros [Hk Hs He Hp]. split; simpl; try done.
  intros k a Hin. destruct (He k a Hin) as (d' & Ha & ?).
  exists d'. split; [|done]. by apply lookup_app_l_Some.
Qed.

Lemma world_ok_remember key board d w :
  chess_Board env key = Returns board →
  fen d = key → cached d = false →
  world_ok env w → world_ok env (remember key d w).
Proof.
  intros Hboard Hfen Hcached [Hk Hs He Hp].
  set (c := if bool_decide (MAX_CACHE_SIZE ≤ length (position_cache w))
            then tail (position_cache w) else position_cache w).
  assert (∀ x, x ∈ c → x ∈ position_cache w) as Hsub.
  { intros x. unfold c. case_bool_decide; [apply elem_of_tail | done]. }
  split; simpl; fold c.
  - apply dict_set_keys_NoDup. unfold c. case_bool_decide; [|done].
    rewrite dict_keys_tail. destruct (dict_keys (position_cache w)); [done|].
    by apply NoDup_cons in Hk as [_ ?].
  - by apply make_room_set_bounded.
  - intros k a [[= -> ->]|Hin]%dict_set_elem.
    + exists d. split; [|done].
      change (heap w ++ [d; d]) with (heap w ++ [d] ++ [d]).
      rewrite (assoc_L (++)).
      apply list_lookup_middle. rewrite length_app. simpl. lia.
    + destruct (He k a (Hsub _ Hin)) as (d' & Ha & ?).
      exists d'. split; [|done]. by apply lookup_app_l_Some.
  - intros k [a [[= -> ->]|Hin]%dict_set_elem]%dict_keys_elem; [eauto|].
    apply Hp, dict_keys_elem. eauto.
Qed.

End Invariant.

(** ** Requests *)

Section Requests.
Context (env : Env).

Lemma position_of_fen_request key : key ≠ "" → position_of (fen_request key) = Some key.
Proof.
  intros Hkey. unfold position_of, fen_request. simpl.
  by apply String.eqb_neq in Hkey as ->.
Qed.

Lemma position_of_nonempty request key : position_of request = Some key → key ≠ "".
Proof.
  unfold position_of. destruct request as [[| | | |?|members]|]; try done.
  destruct (dict_get "fen" members) as [[| | |s| |]|]; try done.
  destruct (String.eqb s "") eqn:E; [done|]. intros [= <-].
  by apply String.eqb_neq.
Qed.

(** A request that carries a position is handled like [{"fen": key}]. *)
Lemma analyze_try_position request key w :
  position_of request = Some key →
  analyze_try env request w = analyze_try env (fen_request key) w.
Proof.
  intros Hpos. pose proof (position_of_nonempty _ _ Hpos) as Hkey.
  unfold position_of in Hpos.
  destruct request as [[| | | |?|members]|]; try done.
  destruct (dict_get "fen" members) as [[| | |s| |]|] eqn:Hget; try done.
  destruct (String.eqb s "") eqn:E; [done|]. injection Hpos as ->.
  assert (dict_get "fen" [("fen", JStr key)] = Some (JStr key)) as Hget'.
  { unfold dict_get. by rewrite decide_True. }
  unfold analyze_try, fen_request, mbind, M_bind, lift, data_get.
  destruct members as [|m members]; [done|].
  rewrite Hget, Hget'. done.
Qed.

Lemma analyze_position request key w :
  position_of request = Some key →
  analyze env request w = analyze env (fen_request key) w.
Proof. intros H. unfold analyze. by rewrite (analyze_try_position _ key). Qed.

(** A request that carries no position is answered with an error and
    touches nothing. *)
Lemma analyze_no_position request w :
  position_of request = None →
  ∃ msg code, analyze env request w = (ReplyError msg code, w) ∧
    (code = 400 ∨ code = 500).
Proof.
  intros Hpos. unfold analyze, analyze_try, mbind, M_bind, lift.
  destruct request as [data|e]; [|eauto].
  destruct (truthy data) eqn:Hdata; simpl; [|eauto].
  unfold data_get. destruct data as [| | | |?|members]; simpl; eauto.
  simpl in Hpos.
  destruct (dict_get "fen" members) as [fen|]; simpl; [|eauto].
  destruct (truthy fen) eqn:Hfen; simpl; [|eauto].
  destruct fen as [| | |s| |]; simpl; unfold raise; eauto.
  simpl in Hfen. apply negb_true_iff in Hfen. by rewrite Hfen in Hpos.
Qed.

(** On a hit the handler changes the heap only. *)
Lemma cache_hit_frame a w :
  position_cache (cache_hit a w).2 = position_cache w ∧
  events (cache_hit a w).2 = events w ∧
  engine (cache_hit a w).2 = engine w.
Proof.
  destruct (heap w !! a) as [d|] eqn:Ha.
  - by rewrite (cache_hit_allocated a d).
  - unfold cache_hit, dict_copy, heap_read, mbind, M_bind. by rewrite Ha.
Qed.

Lemma analyze_hit_frame key w :
  is_Some (dict_get key (position_cache w)) →
  position_cache (analyze env (fen_request key) w).2 = position_cache w ∧
  events (analyze env (fen_request key) w).2 = events w ∧
  engine (analyze env (fen_request key) w).2 = engine w.
Proof.
  intros [a Ha]. destruct (decide (key = "")) as [->|Hkey]; [done|].
  unfold analyze. rewrite analyze_try_fen, Ha by done.
  pose proof (cache_hit_frame a w). by destruct (cache_hit a w) as [[?|?] ?].
Qed.

End Requests.

(** * The claims *)

(** ** The result cache *)

(** Puts that nothing interrupts, made one after the other on an empty
    cache: they all return and the cache never holds more than
    [MAX_CACHE_SIZE] = 512 entries. When the keys put are pairwise distinct
    the cache is exactly the last 512 puts, oldest first; in general a put of
    a new key on a full cache drops the head of the iteration order and
    appends the new entry. A lookup that hits leaves the cache as it was. *)
Lemma run_puts_capacity_fifo {V} (ops fresh d : list (string * V))
    (k : string) (v : V) (env : Env) (key : string) (w : World) :
  NoDup fresh.*1 →
  MAX_CACHE_SIZE ≤ length d → k ∉ dict_keys d →
  is_Some (dict_get key (position_cache w)) →
  MAX_CACHE_SIZE = 512 ∧
  (∃ d', run_puts ops [] = Returns d' ∧ length d' ≤ MAX_CACHE_SIZE) ∧
  run_puts fresh [] = Returns (drop (length fresh - MAX_CACHE_SIZE) fresh) ∧
  cache_put k v d = Returns (tail d ++ [(k, v)]) ∧
  position_cache (analyze env (fen_request key) w).2 = position_cache w.
Proof.
  intros Hfresh Hfull Hk Hhit. split_and!.
  - done.
  - apply run_puts_bounded. simpl. lia.
  - by apply run_puts_distinct.
  - rewrite cache_put_full by done. f_equal. apply dict_set_absent.
    rewrite dict_keys_tail. intros Hin. apply Hk.
    destruct (dict_keys d); [done | by right].
  - by apply analyze_hit_frame.
Qed.

(** C5, as the code has it. A put of a key that is present, on a cache with
    room, overwrites in place: the keys and their order are unchanged, so
    nothing is evicted and [k] keeps its place, [k] has the new value and
    every other key its old one. On a full cache the same put first drops
    the oldest entry, whether or not [k] is present. *)
Theorem put_present_key {V} (k : string) (v' : V) (d : list (string * V)) :
  k ∈ dict_keys d →
  (length d < MAX_CACHE_SIZE →
     ∃ d', cache_put k v' d = Returns d' ∧
       dict_keys d' = dict_keys d ∧
       dict_get k d' = Some v' ∧
       ∀ k', k' ≠ k → dict_get k' d' = dict_get k' d) ∧
  (MAX_CACHE_SIZE ≤ length d →
     cache_put k v' d = Returns (dict_set k v' (tail d))).
Proof.
  intros Hk. split.
  - intros Hroom. exists (dict_set k v' d). split_and!.
    + by apply cache_put_room.
    + by apply dict_set_keys_present.
    + apply dict_get_set_eq.
    + intros k' Hne. by apply dict_get_set_ne.
  - apply cache_put_full.
Qed.

(** A put that nothing interrupts: room is made only when the cache holds
    at least [MAX_CACHE_SIZE] entries, which is positive; then taking the
    first key and popping it returns and removes exactly one entry, the head.
    So such a put returns and changes the size of the cache by at most one,
    up or down. *)
Lemma cache_put_safe {V} (k : string) (v : V) (d : list (string * V)) :
  0 < MAX_CACHE_SIZE ∧
  (length d < MAX_CACHE_SIZE → cache_put k v d = Returns (dict_set k v d)) ∧
  (MAX_CACHE_SIZE ≤ length d →
     cache_evict d = Returns (tail d) ∧ length d = S (length (tail d)) ∧
     cache_put k v d = Returns (dict_set k v (tail d))) ∧
  ∃ d', cache_put k v d = Returns d' ∧
    length d' ≤ S (length d) ∧ length d ≤ S (length d').
Proof.
  pose proof MAX_CACHE_SIZE_pos as Hpos. split_and!.
  - done.
  - apply cache_put_room.
  - intros Hfull. split_and!.
    + apply cache_evict_nonempty. lia.
    + rewrite length_tail. lia.
    + by apply cache_put_full.
  - destruct (cache_put_cases k v d) as [[Hfull E]|[Hroom E]];
      rewrite E; eexists; split; try done.
    + pose proof (dict_set_length_bounds k v (tail d)) as Hb.
      rewrite length_tail in Hb. lia.
    + pose proof (dict_set_length_bounds k v d). lia.
Qed.

(** C5 fails on a full cache: in the cache ["k0"] ... ["k511"] the key
    ["k1"] is present, and putting it again evicts ["k0"], an entry that was
    not written, leaving 511 entries; putting ["k0"] again moves it from the
    oldest to the newest place. *)
Lemma put_present_key_on_full_cache_evicts :
  length (distinct_puts 512) = MAX_CACHE_SIZE ∧
  dict_get (key_of 1) (distinct_puts 512) = Some 1 ∧
  dict_get (key_of 0) (distinct_puts 512) = Some 0 ∧
  (∃ d', cache_put (key_of 1) 7 (distinct_puts 512) = Returns d' ∧
     dict_get (key_of 0) d' = None ∧ length d' = 511) ∧
  (∃ d', cache_put (key_of 0) 7 (distinct_puts 512) = Returns d' ∧
     head (dict_keys (distinct_puts 512)) = Some (key_of 0) ∧
     head (dict_keys d') = Some (key_of 1) ∧
     last (dict_keys d') = Some (key_of 0)).
Proof.
  split_and!; [vm_compute; reflexivity..| |];
    eexists; split_and!; vm_compute; reflexivity.
Qed.

(** With room in the cache, putting ["k1"] again in ["k0"], ["k1"], ["k2"]
    writes it in place. *)
Lemma put_present_key_witness :
  (length (distinct_puts 3) < MAX_CACHE_SIZE →
     ∃ d', cache_put (key_of 1) 7 (distinct_puts 3) = Returns d' ∧
       dict_keys d' = dict_keys (distinct_puts 3) ∧
       dict_get (key_of 1) d' = Some 7 ∧
       ∀ k', k' ≠ key_of 1 → dict_get k' d' = dict_get k' (distinct_puts 3)) ∧
  (MAX_CACHE_SIZE ≤ length (distinct_puts 3) →
     cache_put (key_of 1) 7 (distinct_puts 3) =
       Returns (dict_set (key_of 1) 7 (tail (distinct_puts 3)))).
Proof.
  apply (put_present_key (key_of 1) 7 (distinct_puts 3)).
  apply (bool_decide_unpack _). vm_compute. exact I.
Defined.

(** ** The engine path of the handler *)

Section Recovery.
Context (env : Env).

(** The reply to an uncached position [chess.Board] accepts. *)
Lemma analyze_miss key board w :
  key ≠ "" → dict_get key (position_cache w) = None →
  chess_Board env key = Returns board →
  analyze env (fen_request key) w =
    match evaluate_or_recover env board w with
    | (Raises e, w1) => (ReplyError (str e) 500, w1)
    | (Returns (result, bestmove_result), w1) =>
        match info_score result, move bestmove_result with
        | Some pov, Some m =>
            let d := {| bestmove := uci m;
                        evaluation := evaluation_of (white pov);
                        fen := key; cached := false |} in
            (ReplyJson (length (heap w1)) d, remember key d w1)
        | None, _ => (ReplyError "'score'" 500, w1)
        | Some _, None =>
            (ReplyError "'NoneType' object has no attribute 'uci'" 500, w1)
        end
    end.
Proof.
  intros Hkey Hmiss Hboard. unfold analyze.
  rewrite analyze_try_fen, Hmiss, cache_miss_eq, Hboard by done.
  destruct (evaluate_or_recover env board w) as [[[result bmr]|e] w1]; [|done].
  destruct (info_score result); [|done]. by destruct (move bmr).
Qed.

(** Whatever the request and whatever the engine does, one call of the
    handler makes at most one restart attempt, one termination and two
    evaluate attempts, and completes at most one evaluation. *)
Lemma analyze_events_bounded request w :
  ∃ evs, events (analyze env request w).2 = events w ++ evs ∧
    restarts evs ≤ 1 ∧ terminations evs ≤ 1 ∧ evaluate_attempts evs ≤ 2 ∧
    completed_evaluations evs ≤ 1.
Proof.
  assert (∃ evs : list Event, events w = events w ++ evs ∧
    restarts evs ≤ 1 ∧ terminations evs ≤ 1 ∧ evaluate_attempts evs ≤ 2 ∧
    completed_evaluations evs ≤ 1) as Hquiet.
  { exists []. rewrite app_nil_r. split_and!; try done; cbv; lia. }
  destruct (position_of request) as [key|] eqn:Hpos.
  - rewrite (analyze_position env request key) by done.
    apply position_of_nonempty in Hpos.
    destruct (dict_get key (position_cache w)) as [a|] eqn:Hget.
    + destruct (analyze_hit_frame env key w) as (_ & -> & _); eauto.
    + destruct (chess_Board env key) as [board|e] eqn:Hboard.
      * rewrite (analyze_miss key board) by done.
        destruct (evaluate_or_recover_engine_only env board w)
          as (evs & _ & _ & He & Hr & Ht & Ha & Hc).
        exists evs.
        destruct (evaluate_or_recover env board w) as [[[result bmr]|e] w1];
          simpl in *.
        -- destruct (info_score result), (move bmr); simpl;
             split_and!; try done; lia.
        -- split_and!; try done; lia.
      * unfold analyze. rewrite analyze_try_fen, Hget, cache_miss_eq, Hboard by done.
        done.
  - destruct (analyze_no_position env request w Hpos) as (msg & code & -> & _).
    done.
Qed.

Lemma new_events_same w w' : events w' = events w → new_events w w' = [].
Proof. intros E. apply new_events_app. by rewrite app_nil_r. Qed.

(** On the miss path the trace of the handler is the trace of the
    [with engine_lock] block. *)
Lemma analyze_miss_events key board w :
  key ≠ "" → dict_get key (position_cache w) = None →
  chess_Board env key = Returns board →
  events (analyze env (fen_request key) w).2 =
  events (evaluate_or_recover env board w).2.
Proof.
  intros. rewrite (analyze_miss key board) by done.
  destruct (evaluate_or_recover env board w) as [[[result bmr]|e] w1]; [|done].
  destruct (info_score result); [|done]. by destruct (move bmr).
Qed.

(** Reads off the events a run has added to the trace. *)
Ltac added :=
  unfold log, set_engine; cbn;
  eexists; split; [rewrite <-?(assoc_L (++)); reflexivity | try reflexivity].

(** [initialize_engine] starts a process exactly once, whether or not the
    old one could be terminated. *)
Lemma initialize_engine_restarts w :
  ∃ evs, events (initialize_engine env w).2 = events w ++ evs ∧
    restarts evs = 1.
Proof.
  unfold initialize_engine, try_except, mbind, M_bind, mret, M_ret, get_world,
    quit, popen, configure.
  destruct (engine w) as [h|] eqn:Hh; simpl; rewrite ?Hh;
    repeat (case_match; simpl in *; simplify_eq); by added.
Qed.

(** The [with engine_lock] block on an engine that fails every evaluation:
    it raises after exactly one restart attempt. *)
Lemma evaluate_or_recover_failing board w :
  (∀ board w1, ∃ e w2, evaluate env board w1 = (Raises e, w2)) →
  ∃ e w' evs, evaluate_or_recover env board w = (Raises e, w') ∧
    events w' = events w ++ evs ∧ restarts evs = 1 ∧
    completed_evaluations evs = 0 ∧
    position_cache w' = position_cache w ∧ heap w' = heap w.
Proof.
  intros Hfail.
  destruct (evaluate_or_recover_engine_only env board w)
    as (evs & Hc & Hh & He & _ & _ & _ & Hk).
  destruct (evaluate_engine_only env board w)
    as (evs1 & _ & _ & He1 & Hr1 & _).
  revert Hc Hh He Hk. unfold evaluate_or_recover, try_except, mbind, M_bind.
  destruct (Hfail board w) as (e1 & w1 & Hfirst).
  rewrite Hfirst in *. simpl in He1.
  destruct (initialize_engine_restarts w1) as (evs2 & He2 & Hr2).
  destruct (initialize_engine env w1) as [[[]|e2] w2]; simpl in *.
  - destruct (evaluate_engine_only env board w2)
      as (evs3 & _ & _ & He3 & Hr3 & _).
    destruct (Hfail board w2) as (e3 & w3 & Hsecond).
    rewrite Hsecond in *. simpl in *. intros Hc Hh He Hk.
    exists e3, w3, evs. split_and!; try done.
    rewrite He3, He2, He1, <-!(assoc_L (++)) in He.
    apply app_inv_head in He as <-.
    unfold restarts in *. rewrite !count_app. lia.
  - intros Hc Hh He Hk. exists e2, w2, evs. split_and!; try done.
    rewrite He2, He1, <-!(assoc_L (++)) in He.
    apply app_inv_head in He as <-.
    unfold restarts in *. rewrite !count_app. lia.
Qed.

(** An evaluation that raises on the process [h] is one failed attempt on
    [h] and changes nothing but the trace. *)
Lemma evaluate_Raises board w h e w1 :
  engine w = Some h → evaluate env board w = (Raises e, w1) →
  ∃ evs, failed_attempt h board evs ∧ events w1 = events w ++ evs ∧
    engine w1 = Some h.
Proof.
  unfold evaluate, mbind, M_bind, mret, M_ret, analyse, play, failed_attempt.
  intros Hh. rewrite Hh.
  destruct (engine_analyse env (events w) h board) as [info|e1]; simpl.
  - rewrite Hh.
    destruct (engine_play env _ h board) as [r|e2]; simpl; [done|].
    intros [= <- <-]. eexists. split; [by right|].
    unfold log; simpl. by rewrite <-(assoc_L (++)).
  - intros [= <- <-]. eexists. split; [by left|]. done.
Qed.

(** [initialize_engine] with a process [h] at hand: [h] is told to quit,
    whether or not that raises, then one replacement is started and
    configured. *)
Lemma initialize_engine_trace w h :
  engine w = Some h →
  ∃ ok,
    match initialize_engine env w with
    | (Returns _, w2) =>
        ∃ h', engine w2 = Some h' ∧
          events w2 =
            events w ++ [EvQuit h ok; EvPopen true; EvConfigure h' true]
    | (Raises _, w2) =>
        events w2 = events w ++ [EvQuit h ok; EvPopen false] ∨
        ∃ h', events w2 =
                events w ++ [EvQuit h ok; EvPopen true; EvConfigure h' false]
    end.
Proof.
  intros Hh.
  unfold initialize_engine, try_except, mbind, M_bind, mret, M_ret, get_world,
    quit, popen, configure.
  simpl. rewrite Hh. simpl. rewrite ?Hh.
  destruct (engine_quit env (events w) h) as [eq|]; simpl;
    [exists false|exists true];
    (match goal with
     | |- context [popen_uci env ?evs] =>
         destruct (popen_uci env evs) as [ep|]; simpl
     end;
     [left; unfold log; simpl; by rewrite <-(assoc_L (++))|];
     match goal with
     | |- context [engine_configure env ?evs ?h'] =>
         destruct (engine_configure env evs h') as [ec|]; simpl
     end;
     [right|]; eexists; unfold log, set_engine; simpl;
     rewrite <-?(assoc_L (++)); simpl; eauto).
Qed.

(** The [with engine_lock] block on a process [h] and an engine that fails
    every evaluation: a failed attempt on [h], the termination of [h], one
    start of a replacement and, when that is ready, one failed attempt on
    it. *)
Lemma evaluate_or_recover_failing_trace board w h :
  (∀ board w1, ∃ e w2, evaluate env board w1 = (Raises e, w2)) →
  engine w = Some h →
  ∃ ok attempt1, failed_attempt h board attempt1 ∧
    (events (evaluate_or_recover env board w).2 =
       events w ++ attempt1 ++ [EvQuit h ok; EvPopen false] ∨
     (∃ h', events (evaluate_or_recover env board w).2 =
        events w ++ attempt1 ++
        [EvQuit h ok; EvPopen true; EvConfigure h' false]) ∨
     (∃ h' attempt2, failed_attempt h' board attempt2 ∧
        events (evaluate_or_recover env board w).2 =
          events w ++ attempt1 ++
          [EvQuit h ok; EvPopen true; EvConfigure h' true] ++ attempt2 ∧
        engine (evaluate_or_recover env board w).2 = Some h')).
Proof.
  intros Hfail Hh.
  unfold evaluate_or_recover, try_except, mbind, M_bind.
  destruct (Hfail board w) as (e1 & w1 & Hfirst). rewrite Hfirst.
  destruct (evaluate_Raises board w h e1 w1 Hh Hfirst)
    as (attempt1 & Hattempt1 & He1 & Hh1).
  destruct (initialize_engine_trace w1 h Hh1) as [ok Hinit].
  exists ok, attempt1. split; [done|].
  destruct (initialize_engine env w1) as [[[]|e2] w2]; simpl.
  - destruct Hinit as (h' & Hh2 & He2).
    destruct (Hfail board w2) as (e3 & w3 & Hsecond). rewrite Hsecond.
    destruct (evaluate_Raises board w2 h' e3 w3 Hh2 Hsecond)
      as (attempt2 & Hattempt2 & He3 & Hh3).
    right. right. exists h', attempt2. split; [done|]. split; [|done].
    simpl. by rewrite He3, He2, He1, <-!(assoc_L (++)).
  - destruct Hinit as [He2|[h' He2]]; [left|right; left; exists h'];
      by rewrite He2, He1, <-!(assoc_L (++)).
Qed.

(** With no process at hand there is nothing to terminate: [engine.analyse]
    raises on [None], then one replacement is started and configured and,
    when it is ready, the one retry is made on it. *)
Lemma evaluate_or_recover_failing_fresh board w :
  (∀ board w1, ∃ e w2, evaluate env board w1 = (Raises e, w2)) →
  engine w = None →
  events (evaluate_or_recover env board w).2 = events w ++ [EvPopen false] ∨
  (∃ h', events (evaluate_or_recover env board w).2 =
     events w ++ [EvPopen true; EvConfigure h' false]) ∨
  (∃ h' attempt2, failed_attempt h' board attempt2 ∧
     events (evaluate_or_recover env board w).2 =
       events w ++ [EvPopen true; EvConfigure h' true] ++ attempt2 ∧
     engine (evaluate_or_recover env board w).2 = Some h').
Proof.
  intros Hfail Hh.
  assert (evaluate env board w =
          (Raises (AttributeError "'NoneType' object has no attribute"), w))
    as Hfirst.
  { unfold evaluate, mbind, M_bind, analyse. by rewrite Hh. }
  unfold evaluate_or_recover, try_except, mbind, M_bind. rewrite Hfirst.
  assert (match initialize_engine env w with
          | (Returns _, w2) =>
              ∃ h', engine w2 = Some h' ∧
                events w2 = events w ++ [EvPopen true; EvConfigure h' true]
          | (Raises _, w2) =>
              events w2 = events w ++ [EvPopen false] ∨
              ∃ h', events w2 =
                      events w ++ [EvPopen true; EvConfigure h' false]
          end) as Hinit.
  { unfold initialize_engine, try_except, mbind, M_bind, mret, M_ret,
      get_world, popen, configure.
    simpl. rewrite Hh. simpl.
    destruct (popen_uci env (events w)) as [ep|]; simpl;
      [left; by unfold log|].
    match goal with
    | |- context [engine_configure env ?evs ?h'] =>
        destruct (engine_configure env evs h') as [ec|]; simpl
    end;
      [right|]; eexists; unfold log, set_engine; simpl;
      rewrite <-?(assoc_L (++)); simpl; eauto. }
  destruct (initialize_engine env w) as [[[]|e2] w2]; simpl.
  - destruct Hinit as (h' & Hh2 & He2).
    destruct (Hfail board w2) as (e3 & w3 & Hsecond). rewrite Hsecond.
    destruct (evaluate_Raises board w2 h' e3 w3 Hh2 Hsecond)
      as (attempt2 & Hattempt2 & He3 & Hh3).
    right. right. exists h', attempt2. split; [done|]. split; [|done].
    simpl. by rewrite He3, He2, <-!(assoc_L (++)).
  - destruct Hinit as [He2|[h' He2]]; [left|right; left; exists h']; done.
Qed.

(** The same on the handler: what one call adds to the trace when the
    request reaches a process [h] of an engine that fails every evaluation. *)
Lemma analyze_failing_trace key board w h :
  (∀ board w1, ∃ e w2, evaluate env board w1 = (Raises e, w2)) →
  key ≠ "" → dict_get key (position_cache w) = None →
  chess_Board env key = Returns board →
  engine w = Some h →
  terminations (new_events w (analyze env (fen_request key) w).2) = 1 ∧
  ∃ ok attempt1, failed_attempt h board attempt1 ∧
    (new_events w (analyze env (fen_request key) w).2 =
       attempt1 ++ [EvQuit h ok; EvPopen false] ∨
     (∃ h', new_events w (analyze env (fen_request key) w).2 =
        attempt1 ++ [EvQuit h ok; EvPopen true; EvConfigure h' false]) ∨
     (∃ h' attempt2, failed_attempt h' board attempt2 ∧
        new_events w (analyze env (fen_request key) w).2 =
          attempt1 ++
          [EvQuit h ok; EvPopen true; EvConfigure h' true] ++ attempt2 ∧
        evaluate_attempts (new_events w (analyze env (fen_request key) w).2)
          = 2 ∧
        engine (analyze env (fen_request key) w).2 = Some h')).
Proof.
  intros Hfail Hkey Hmiss Hboard Hh.
  destruct (evaluate_or_recover_failing board w Hfail)
    as (e & w' & evs' & Hraise & _).
  destruct (evaluate_or_recover_failing_trace board w h Hfail Hh)
    as (ok & attempt1 & Ha1 & Hcases).
  rewrite (analyze_miss key board), Hraise by done.
  rewrite Hraise in Hcases. cbn [snd] in Hcases |- *.
  destruct Hcases as [He|[[h' He]|(h' & attempt2 & Ha2 & He & Hh')]];
    rewrite (new_events_app _ _ _ He).
  - split; [by destruct Ha1 as [-> | ->]|].
    exists ok, attempt1. split; [done|]. by left.
  - split; [by destruct Ha1 as [-> | ->]|].
    exists ok, attempt1. split; [done|]. right. left. by exists h'.
  - split; [by destruct Ha1 as [-> | ->], Ha2 as [-> | ->]|].
    exists ok, attempt1. split; [done|]. right. right.
    exists h', attempt2. split_and!; try done.
    by destruct Ha1 as [-> | ->], Ha2 as [-> | ->].
Qed.

Lemma analyze_failing_trace_fresh key board w :
  (∀ board w1, ∃ e w2, evaluate env board w1 = (Raises e, w2)) →
  key ≠ "" → dict_get key (position_cache w) = None →
  chess_Board env key = Returns board →
  engine w = None →
  terminations (new_events w (analyze env (fen_request key) w).2) = 0 ∧
  (new_events w (analyze env (fen_request key) w).2 = [EvPopen false] ∨
   (∃ h', new_events w (analyze env (fen_request key) w).2 =
      [EvPopen true; EvConfigure h' false]) ∨
   (∃ h' attempt2, failed_attempt h' board attempt2 ∧
      new_events w (analyze env (fen_request key) w).2 =
        [EvPopen true; EvConfigure h' true] ++ attempt2 ∧
      evaluate_attempts (new_events w (analyze env (fen_request key) w).2)
        = 1 ∧
      engine (analyze env (fen_request key) w).2 = Some h')).
Proof.
  intros Hfail Hkey Hmiss Hboard Hh.
  destruct (evaluate_or_recover_failing board w Hfail)
    as (e & w' & evs' & Hraise & _).
  pose proof (evaluate_or_recover_failing_fresh board w Hfail Hh) as Hcases.
  rewrite (analyze_miss key board), Hraise by done.
  rewrite Hraise in Hcases. cbn [snd] in Hcases |- *.
  destruct Hcases as [He|[[h' He]|(h' & attempt2 & Ha2 & He & Hh')]];
    rewrite (new_events_app _ _ _ He).
  - split; [done|]. by left.
  - split; [done|]. right. left. by exists h'.
  - split; [by destruct Ha2 as [-> | ->]|]. right. right.
    exists h', attempt2. split_and!; try done.
    by destruct Ha2 as [-> | ->].
Qed.

End Recovery.

(** ** Recovery *)

(** C2. Take an engine on which every evaluation fails. Whatever the
    request, one call of the handler adds to the trace at most one start of a
    replacement process, at most one termination and at most two evaluate
    attempts, and completes no evaluation: the handler is a total function
    and does not loop. When the request reaches the engine (an uncached
    position that [chess.Board] accepts) the reply is an error with status
    500 and exactly one restart was attempted. With a process [h] at hand the
    call makes exactly these engine calls, in this order: one failed attempt
    on [h]; the termination of [h], once, whether or not it raises; one start
    of a replacement; and, only when the replacement started and was
    configured, one failed attempt on the replacement, the second and last.
    When the start or the configuration raises there is no retry. With no
    process at hand ([engine] is [None]) nothing is terminated, and the
    attempt on the replacement is the only one that reaches an engine. *)
Theorem single_retry_bound (env : Env) (request : outcome JVal) (w : World) :
  (∀ board w1, ∃ e w2, evaluate env board w1 = (Raises e, w2)) →
  events (analyze env request w).2 =
    events w ++ new_events w (analyze env request w).2 ∧
  restarts (new_events w (analyze env request w).2) ≤ 1 ∧
  terminations (new_events w (analyze env request w).2) ≤ 1 ∧
  evaluate_attempts (new_events w (analyze env request w).2) ≤ 2 ∧
  completed_evaluations (new_events w (analyze env request w).2) = 0 ∧
  ∀ key board,
    position_of request = Some key →
    dict_get key (position_cache w) = None →
    chess_Board env key = Returns board →
    (∃ msg, (analyze env request w).1 = ReplyError msg 500) ∧
    status (http_response (analyze env request w).1) = 500 ∧
    restarts (new_events w (analyze env request w).2) = 1 ∧
    position_cache (analyze env request w).2 = position_cache w ∧
    (∀ h, engine w = Some h →
      terminations (new_events w (analyze env request w).2) = 1 ∧
      ∃ ok attempt1, failed_attempt h board attempt1 ∧
        (new_events w (analyze env request w).2 =
           attempt1 ++ [EvQuit h ok; EvPopen false] ∨
         (∃ h', new_events w (analyze env request w).2 =
            attempt1 ++ [EvQuit h ok; EvPopen true; EvConfigure h' false]) ∨
         (∃ h' attempt2, failed_attempt h' board attempt2 ∧
            new_events w (analyze env request w).2 =
              attempt1 ++
              [EvQuit h ok; EvPopen true; EvConfigure h' true] ++ attempt2 ∧
            evaluate_attempts (new_events w (analyze env request w).2) = 2 ∧
            engine (analyze env request w).2 = Some h'))) ∧
    (engine w = None →
      terminations (new_events w (analyze env request w).2) = 0 ∧
      (new_events w (analyze env request w).2 = [EvPopen false] ∨
       (∃ h', new_events w (analyze env request w).2 =
          [EvPopen true; EvConfigure h' false]) ∨
       (∃ h' attempt2, failed_attempt h' board attempt2 ∧
          new_events w (analyze env request w).2 =
            [EvPopen true; EvConfigure h' true] ++ attempt2 ∧
          evaluate_attempts (new_events w (analyze env request w).2) = 1 ∧
          engine (analyze env request w).2 = Some h'))).
Proof.
  intros Hfail.
  assert (∀ key board, position_of request = Some key →
    dict_get key (position_cache w) = None →
    chess_Board env key = Returns board → engine w = None →
    terminations (new_events w (analyze env request w).2) = 0 ∧
    (new_events w (analyze env request w).2 = [EvPopen false] ∨
     (∃ h', new_events w (analyze env request w).2 =
        [EvPopen true; EvConfigure h' false]) ∨
     (∃ h' attempt2, failed_attempt h' board attempt2 ∧
        new_events w (analyze env request w).2 =
          [EvPopen true; EvConfigure h' true] ++ attempt2 ∧
        evaluate_attempts (new_events w (analyze env request w).2) = 1 ∧
        engine (analyze env request w).2 = Some h'))) as Hfresh.
  { intros key board Hpos Hmiss Hboard Hh.
    pose proof (position_of_nonempty _ _ Hpos) as Hkey.
    rewrite (analyze_position env request key) by done.
    by apply analyze_failing_trace_fresh. }
  assert (∀ key board h, position_of request = Some key →
    dict_get key (position_cache w) = None →
    chess_Board env key = Returns board → engine w = Some h →
    terminations (new_events w (analyze env request w).2) = 1 ∧
    ∃ ok attempt1, failed_attempt h board attempt1 ∧
      (new_events w (analyze env request w).2 =
         attempt1 ++ [EvQuit h ok; EvPopen false] ∨
       (∃ h', new_events w (analyze env request w).2 =
          attempt1 ++ [EvQuit h ok; EvPopen true; EvConfigure h' false]) ∨
       (∃ h' attempt2, failed_attempt h' board attempt2 ∧
          new_events w (analyze env request w).2 =
            attempt1 ++
            [EvQuit h ok; EvPopen true; EvConfigure h' true] ++ attempt2 ∧
          evaluate_attempts (new_events w (analyze env request w).2) = 2 ∧
          engine (analyze env request w).2 = Some h'))) as Htrace.
  { intros key board h Hpos Hmiss Hboard Hh.
    pose proof (position_of_nonempty _ _ Hpos) as Hkey.
    rewrite (analyze_position env request key) by done.
    by apply analyze_failing_trace. }
  destruct (analyze_events_bounded env request w)
    as (evs & He & Hr & Ht & Ha & Hc).
  rewrite (new_events_app _ _ evs He).
  assert (∀ key board, position_of request = Some key →
    dict_get key (position_cache w) = None →
    chess_Board env key = Returns board →
    (∃ msg, (analyze env request w).1 = ReplyError msg 500) ∧
    status (http_response (analyze env request w).1) = 500 ∧
    restarts evs = 1 ∧ completed_evaluations evs = 0 ∧
    position_cache (analyze env request w).2 = position_cache w) as Hengine.
  { intros key board Hpos Hmiss Hboard.
    pose proof (position_of_nonempty _ _ Hpos) as Hkey.
    rewrite (analyze_position env request key) in * by done.
    rewrite (analyze_miss env key board) in * by done.
    destruct (evaluate_or_recover_failing env board w Hfail)
      as (e & w' & evs' & Hraise & He' & Hr' & Hc' & Hcache & _).
    rewrite Hraise in *. simpl in *.
    rewrite He' in He. apply app_inv_head in He as <-.
    split_and!; eauto. }
  split_and!; try done.
  - destruct (position_of request) as [key|] eqn:Hpos.
    + pose proof (position_of_nonempty _ _ Hpos) as Hkey.
      destruct (dict_get key (position_cache w)) as [a|] eqn:Hget.
      * rewrite (analyze_position env request key) in He by done.
        destruct (analyze_hit_frame env key w) as (_ & He' & _); [eauto|].
        rewrite He', <-(app_nil_r (events w)) in He at 1.
        by apply app_inv_head in He as <-.
      * destruct (chess_Board env key) as [board|e] eqn:Hboard.
        -- by destruct (Hengine key board) as (_ & _ & _ & ? & _).
        -- rewrite (analyze_position env request key) in He by done.
           unfold analyze in He.
           rewrite analyze_try_fen, Hget, cache_miss_eq, Hboard in He by done.
           simpl in He. rewrite <-(app_nil_r (events w)) in He at 1.
           by apply app_inv_head in He as <-.
    + destruct (analyze_no_position env request w Hpos) as (msg & code & E & _).
      rewrite E in He. simpl in He.
      rewrite <-(app_nil_r (events w)) in He at 1.
      by apply app_inv_head in He as <-.
  - intros key board Hpos Hmiss Hboard.
    destruct (Hengine key board) as (? & ? & ? & _ & ?); try done.
    split_and!; try done.
    + intros h Hh.
      rewrite <-(new_events_app _ _ evs He). by apply (Htrace key board h).
    + intros Hh.
      rewrite <-(new_events_app _ _ evs He). by apply (Hfresh key board).
Qed.

Lemma mute_engine_always_fails board w1 :
  ∃ e w2, evaluate mute_engine board w1 = (Raises e, w2).
Proof.
  unfold evaluate, mbind, M_bind, analyse.
  destruct (engine w1); simpl; eauto.
Qed.

(** With an engine that starts but never answers an analysis, a request for
    ["startpos"] is answered 500 after a failed attempt on the process at
    hand, its termination, the start of a replacement and one failed attempt
    on the replacement; the cache is as before. *)
Lemma single_retry_bound_witness :
  (∀ board w1, ∃ e w2, evaluate mute_engine board w1 = (Raises e, w2)) ∧
  (analyze mute_engine (fen_request "startpos")
     (started (answering_engine (Cp 31)))).1 =
    ReplyError "engine process died" 500 ∧
  restarts (new_events (started (answering_engine (Cp 31)))
              (analyze mute_engine (fen_request "startpos")
                 (started (answering_engine (Cp 31)))).2) = 1 ∧
  terminations (new_events (started (answering_engine (Cp 31)))
              (analyze mute_engine (fen_request "startpos")
                 (started (answering_engine (Cp 31)))).2) = 1 ∧
  new_events (started (answering_engine (Cp 31)))
    (analyze mute_engine (fen_request "startpos")
       (started (answering_engine (Cp 31)))).2 =
    [EvAnalyse 0 {| board_fen := "startpos" |} false; EvQuit 0 true;
     EvPopen true; EvConfigure 4 true;
     EvAnalyse 4 {| board_fen := "startpos" |} false] ∧
  position_cache (analyze mute_engine (fen_request "startpos")
                    (started (answering_engine (Cp 31)))).2 = [].
Proof.
  split; [exact mute_engine_always_fails|].
  destruct (single_retry_bound mute_engine (fen_request "startpos")
              (started (answering_engine (Cp 31))) mute_engine_always_fails)
    as (_ & _ & _ & _ & _ & Hengine).
  destruct (Hengine "startpos" {| board_fen := "startpos" |})
    as (_ & _ & Hrestarts & Hcache & Htrace & _); [reflexivity..|].
  destruct (Htrace 0 eq_refl) as [Hterminations _].
  split; [reflexivity|]. split; [exact Hrestarts|].
  split; [exact Hterminations|]. split; [reflexivity | exact Hcache].
Defined.

(** C3. On an uncached position that [chess.Board] accepts, when the first
    evaluation raises and the recovery (re-initialisation, then the one
    retry) raises as well, the reply is the error payload with status 500,
    and neither the cache nor any dict object has changed: no entry was
    inserted, evicted or modified. *)
Theorem failed_recovery_keeps_cache (env : Env) (request : outcome JVal)
    (key : string) (board : Board) (w w1 w2 : World) (e1 e2 : PyExn) :
  position_of request = Some key →
  dict_get key (position_cache w) = None →
  chess_Board env key = Returns board →
  evaluate env board w = (Raises e1, w1) →
  (initialize_engine env;; evaluate env board) w1 = (Raises e2, w2) →
  analyze env request w = (ReplyError (str e2) 500, w2) ∧
  status (http_response (analyze env request w).1) = 500 ∧
  position_cache w2 = position_cache w ∧
  heap w2 = heap w.
Proof.
  intros Hpos Hmiss Hboard Hfirst Hretry.
  pose proof (position_of_nonempty _ _ Hpos) as Hkey.
  rewrite (analyze_position env request key) by done.
  rewrite (analyze_miss env key board) by done.
  destruct (evaluate_or_recover_engine_only env board w)
    as (evs & Hcache & Hheap & _).
  revert Hcache Hheap. unfold evaluate_or_recover, try_except.
  rewrite Hfirst, Hretry. simpl. done.
Qed.

(** The dead engine again: the first evaluation fails, the replacement does
    not start, the reply is 500 and the cache of [warm_world] keeps its one
    entry. *)
Lemma failed_recovery_keeps_cache_witness :
  analyze dead_engine (fen_request "8/8/8/8/8/8/8/K6k w - - 0 1") warm_world =
    (ReplyError "cannot start the engine" 500,
     (analyze dead_engine (fen_request "8/8/8/8/8/8/8/K6k w - - 0 1")
        warm_world).2) ∧
  position_cache
    (analyze dead_engine (fen_request "8/8/8/8/8/8/8/K6k w - - 0 1")
       warm_world).2 = position_cache warm_world ∧
  heap (analyze dead_engine (fen_request "8/8/8/8/8/8/8/K6k w - - 0 1")
          warm_world).2 = heap warm_world.
Proof.
  destruct (failed_recovery_keeps_cache dead_engine
              (fen_request "8/8/8/8/8/8/8/K6k w - - 0 1")
              "8/8/8/8/8/8/8/K6k w - - 0 1"
              {| board_fen := "8/8/8/8/8/8/8/K6k w - - 0 1" |}
              warm_world
              (evaluate dead_engine
                 {| board_fen := "8/8/8/8/8/8/8/K6k w - - 0 1" |} warm_world).2
              (analyze dead_engine (fen_request "8/8/8/8/8/8/8/K6k w - - 0 1")
                 warm_world).2
              (LibraryError "engine process died")
              (LibraryError "cannot start the engine"))
    as (Hreply & _ & Hcache & Hheap); try reflexivity.
  split; [exact Hreply|]. split; [exact Hcache | exact Hheap].
Defined.

(** ** Input validation *)

(** C6 fails for a position that does not parse: the text ["not-a-fen"],
    which [chess.Board] rejects, is answered with status 500, not 400. *)
Lemma malformed_position_is_500 :
  chess_Board (answering_engine (Cp 31)) "not-a-fen" =
    Raises (LibraryError "invalid fen") ∧
  analyze (answering_engine (Cp 31)) (fen_request "not-a-fen")
    (started (answering_engine (Cp 31))) =
    (ReplyError "invalid fen" 500, started (answering_engine (Cp 31))) ∧
  status (http_response
            (analyze (answering_engine (Cp 31)) (fen_request "not-a-fen")
               (started (answering_engine (Cp 31)))).1) = 500.
Proof. split_and!; reflexivity. Qed.

(** C6, as the code has it. A request without a usable position is answered
    with an error payload and the state of the server is exactly as before:
    no engine call was made and the cache was not touched. The status is 400
    exactly for the two tests of lines 90-96: the body [get_json()] returns
    is false, or it is an object whose ["fen"] is missing or false. It is
    500 in every other case: [get_json()] raises, the body is not an object,
    the ["fen"] is not a string, or the string does not parse. Every request
    that carries no position, and every request whose position does not
    parse, is one of these. *)
Theorem invalid_position_rejected (env : Env) (request : outcome JVal)
    (w : World) :
  world_ok env w →
  (∀ code, invalid_input env request code →
     (∃ msg, analyze env request w = (ReplyError msg code, w)) ∧
     status (http_response (analyze env request w).1) = code ∧
     events (analyze env request w).2 = events w ∧
     position_cache (analyze env request w).2 = position_cache w ∧
     (code = 400 ∨ code = 500)) ∧
  (position_of request = None → ∃ code, invalid_input env request code) ∧
  (∀ key e, position_of request = Some key →
     chess_Board env key = Raises e → invalid_input env request 500) ∧
  (invalid_input env request 400 ↔ is_bad_request request = true).
Proof.
  intros Hok. split_and!.
  - intros code Hin.
    assert (∃ msg, analyze env request w = (ReplyError msg code, w))
      as [msg E].
    { destruct Hin as [e|data Hdata|data Hdata Hobj|members Hne Hfen
                      |members v Hget Hv Hstr|request key e Hpos Hboard].
      - unfold analyze, analyze_try, mbind, M_bind, lift. simpl. eauto.
      - unfold analyze, analyze_try, mbind, M_bind, lift. rewrite Hdata.
        simpl. eauto.
      - unfold analyze, analyze_try, mbind, M_bind, lift, data_get.
        rewrite Hdata. cbn [negb].
        destruct data; simpl; eauto. by destruct (Hobj members).
      - unfold analyze, analyze_try, mbind, M_bind, lift, data_get.
        destruct members as [|m ms]; [done|]. cbn [truthy negb].
        rewrite Hfen. simpl. eauto.
      - unfold analyze, analyze_try, mbind, M_bind, lift, data_get.
        destruct members as [|m ms]; [done|]. cbn [truthy negb].
        rewrite Hget. change (default JNull (Some v)) with v. rewrite Hv.
        destruct v; simpl; unfold raise; eauto. by destruct (Hstr s).
      - pose proof (position_of_nonempty _ _ Hpos) as Hkey.
        rewrite (analyze_position env request key) by done.
        unfold analyze. rewrite analyze_try_fen by done.
        destruct (dict_get key (position_cache w)) as [a|] eqn:Hget.
        + destruct (ok_parsed env w Hok key) as [b Hb]; [|congruence].
          apply dict_get_is_Some. eauto.
        + rewrite cache_miss_eq, Hboard. eauto. }
    rewrite E. simpl. split_and!; eauto.
    destruct Hin; auto.
  - intros Hpos. destruct request as [data|e]; [|eauto using invalid_input].
    destruct (truthy data) eqn:Hdata; [|eauto using invalid_input].
    destruct data as [| | | | |members];
      try (exists 500; by apply input_not_an_object).
    assert (members ≠ []) as Hne by (by intros ->).
    simpl in Hpos.
    destruct (dict_get "fen" members) as [v|] eqn:Hget;
      [|exists 400; apply input_absent; [done|by rewrite Hget]].
    destruct (truthy v) eqn:Hv;
      [|exists 400; apply input_absent; [done|by rewrite Hget]].
    exists 500. apply (input_not_a_string env members v); try done.
    intros key ->. simpl in Hv. apply negb_true_iff in Hv.
    by rewrite Hv in Hpos.
  - intros key e Hpos Hboard. by apply (input_malformed env request key e).
  - split.
    + inversion 1 as [|data Hdata|???|members Hne Hfen|????|????];
        simplify_eq; unfold is_bad_request.
      * by rewrite Hdata.
      * rewrite Hfen. cbn [negb]. apply orb_true_r.
    + destruct request as [data|e]; [|done]. simpl.
      destruct (truthy data) eqn:Hdata; [|intros _; by apply input_empty].
      simpl. destruct data as [| | | | |members]; try done.
      intros Hfen%negb_true_iff. apply input_absent; [by intros ->|done].
Qed.

Lemma warm_world_ok : world_ok (answering_engine (Cp 31)) warm_world.
Proof.
  unfold warm_world.
  rewrite (analyze_miss _ "startpos" {| board_fen := "startpos" |});
    [|done..].
  apply (world_ok_remember _ "startpos" {| board_fen := "startpos" |});
    [done..|].
  apply world_ok_engine_only with initial_world; [done..|].
  apply world_ok_initial.
Qed.

(** An empty ["fen"] is answered 400, a body that is a list is answered
    500, and neither changes anything. *)
Lemma invalid_position_rejected_witness :
  (∃ msg, analyze (answering_engine (Cp 31)) (fen_request "") warm_world =
            (ReplyError msg 400, warm_world)) ∧
  events (analyze (answering_engine (Cp 31)) (fen_request "") warm_world).2 =
    events warm_world ∧
  position_cache
    (analyze (answering_engine (Cp 31)) (fen_request "") warm_world).2 =
    position_cache warm_world ∧
  (∃ msg,
     analyze (answering_engine (Cp 31)) (Returns (JArr [JNum 1])) warm_world =
       (ReplyError msg 500, warm_world)).
Proof.
  destruct (invalid_position_rejected (answering_engine (Cp 31))
              (fen_request "") warm_world warm_world_ok) as (Hfen & _).
  destruct (invalid_position_rejected (answering_engine (Cp 31))
              (Returns (JArr [JNum 1])) warm_world warm_world_ok)
    as (Hlist & _).
  destruct (Hfen 400) as (Hreply & _ & Hevents & Hcache & _);
    [apply input_absent; [done|reflexivity]|].
  destruct (Hlist 500) as (Hreply' & _);
    [apply input_not_an_object; [reflexivity|done]|].
  split; [exact Hreply|]. split; [exact Hevents|].
  split; [exact Hcache | exact Hreply'].
Defined.

(** ** Scores *)

(** C7. When the request reaches the engine and the evaluation returns a
    score and a move, the reply carries that move and, for a mate score,
    exactly 10000 when the number of moves to mate from White's point of
    view is positive (White mates) and exactly -10000 otherwise, so the
    magnitude is 10000 whatever the number of moves; for any other score it
    carries the centipawn value from White's point of view. *)
Theorem mate_score_sentinel (env : Env) (request : outcome JVal) (key : string)
    (board : Board) (w w1 : World) (result : InfoDict)
    (bestmove_result : PlayResult) (pov : PovScore) (m : Move) :
  position_of request = Some key →
  dict_get key (position_cache w) = None →
  chess_Board env key = Returns board →
  evaluate_or_recover env board w = (Returns (result, bestmove_result), w1) →
  info_score result = Some pov →
  move bestmove_result = Some m →
  ∃ a d, (analyze env request w).1 = ReplyJson a d ∧
    status (http_response (analyze env request w).1) = 200 ∧
    bestmove d = uci m ∧ fen d = key ∧ cached d = false ∧
    evaluation d = evaluation_of (white pov) ∧
    match white pov with
    | Mate n =>
        ((0 < n)%Z → evaluation d = 10000%Z) ∧
        ((n ≤ 0)%Z → evaluation d = (-10000)%Z) ∧
        Z.abs (evaluation d) = 10000%Z
    | Cp c => evaluation d = c
    end.
Proof.
  intros Hpos Hmiss Hboard Heval Hscore Hmove.
  pose proof (position_of_nonempty _ _ Hpos) as Hkey.
  rewrite (analyze_position env request key) by done.
  rewrite (analyze_miss env key board) by done.
  rewrite Heval, Hscore, Hmove. simpl.
  eexists _, _. split_and!; try done. simpl.
  destruct (white pov) as [c|n]; simpl; [done|].
  destruct (Z.ltb_spec 0 n); split_and!; try done; lia.
Qed.

(** An engine that reports mate in 3 for White gives 10000, and one that
    reports mate in 5 against White gives -10000. *)
Lemma mate_score_sentinel_witness :
  (∃ a d, (analyze (answering_engine (Mate 3)) (fen_request "startpos")
             (started (answering_engine (Mate 3)))).1 = ReplyJson a d ∧
     evaluation d = 10000%Z) ∧
  (∃ a d, (analyze (answering_engine (Mate (-5))) (fen_request "startpos")
             (started (answering_engine (Mate (-5))))).1 = ReplyJson a d ∧
     evaluation d = (-10000)%Z).
Proof.
  split.
  - destruct (mate_score_sentinel (answering_engine (Mate 3))
                (fen_request "startpos") "startpos"
                {| board_fen := "startpos" |}
                (started (answering_engine (Mate 3)))
                (evaluate_or_recover (answering_engine (Mate 3))
                   {| board_fen := "startpos" |}
                   (started (answering_engine (Mate 3)))).2
                {| info_score := Some {| white := Mate 3 |} |}
                {| move := Some {| uci := "e2e4" |} |}
                {| white := Mate 3 |} {| uci := "e2e4" |})
      as (a & d & Hreply & _ & _ & _ & _ & _ & Hmate & _); try reflexivity.
    exists a, d. split; [exact Hreply | apply Hmate; lia].
  - destruct (mate_score_sentinel (answering_engine (Mate (-5)))
                (fen_request "startpos") "startpos"
                {| board_fen := "startpos" |}
                (started (answering_engine (Mate (-5))))
                (evaluate_or_recover (answering_engine (Mate (-5)))
                   {| board_fen := "startpos" |}
                   (started (answering_engine (Mate (-5))))).2
                {| info_score := Some {| white := Mate (-5) |} |}
                {| move := Some {| uci := "e2e4" |} |}
                {| white := Mate (-5) |} {| uci := "e2e4" |})
      as (a & d & Hreply & _ & _ & _ & _ & _ & _ & Hmated & _);
      try reflexivity.
    exists a, d. split; [exact Hreply | apply Hmated; lia].
Defined.

(** The boundary of the mate branch: a mate score whose number of moves is
    0 takes the negative sentinel. *)
Lemma evaluation_of_mate_zero : evaluation_of (Mate 0) = (-10000)%Z.
Proof. reflexivity. Qed.

(** ** Miss, then hit *)

Section MissThenHit.
Context (env : Env).

(** What a successful reply to an uncached position leaves behind. *)
Lemma analyze_miss_Json key w r w' :
  key ≠ "" → dict_get key (position_cache w) = None →
  analyze env (fen_request key) w = (r, w') →
  status (http_response r) = 200 →
  ∃ board x w1 d,
    chess_Board env key = Returns board ∧
    evaluate_or_recover env board w = (Returns x, w1) ∧
    r = ReplyJson (length (heap w1)) d ∧ w' = remember key d w1 ∧
    fen d = key ∧ cached d = false.
Proof.
  intros Hkey Hmiss Hr Hstatus.
  destruct (chess_Board env key) as [board|e] eqn:Hboard.
  - rewrite (analyze_miss env key board) in Hr by done.
    destruct (evaluate_or_recover env board w) as [[[result bmr]|e] w1]
      eqn:Heval; [|by simplify_eq].
    destruct (info_score result) as [pov|]; [|by simplify_eq].
    destruct (move bmr) as [m|]; [|by simplify_eq].
    simpl in Hr. simplify_eq. by eexists board, (result, bmr), w1, _.
  - unfold analyze in Hr.
    rewrite analyze_try_fen, Hmiss, cache_miss_eq, Hboard in Hr by done.
    by simplify_eq.
Qed.

(** The entry stored by [remember] is found again, allocated. *)
Lemma remember_lookup key d w :
  dict_get key (position_cache (remember key d w)) = Some (S (length (heap w))) ∧
  heap (remember key d w) !! S (length (heap w)) = Some d.
Proof.
  split; simpl.
  - apply dict_get_set_eq.
  - change (heap w ++ [d; d]) with (heap w ++ [d] ++ [d]).
    rewrite (assoc_L (++)). apply list_lookup_middle.
    rewrite length_app. simpl. lia.
Qed.

(** A hit on an allocated entry. *)
Lemma analyze_hit key a d w :
  key ≠ "" → dict_get key (position_cache w) = Some a → heap w !! a = Some d →
  analyze env (fen_request key) w =
    (ReplyJson (length (heap w)) (set_cached true d), serve_cached d w).
Proof.
  intros Hkey Hget Ha. unfold analyze.
  by rewrite analyze_try_fen, Hget, (cache_hit_allocated a d) by done.
Qed.

End MissThenHit.

(** C8. Take a position that is not in the cache and a call of the handler
    for it that succeeds (status 200). The reply is tagged [cached = false];
    exactly one evaluation ran to its end during the call, within at most two
    attempts, and when the engine answers the first attempt the call made
    exactly two engine calls, one [analyse] and one [play]. A second call
    with the same request is a hit: it returns the same best move and
    evaluation tagged [cached = true] and makes no engine call at all. *)
Theorem miss_then_hit (env : Env) (request : outcome JVal) (key : string)
    (w w' : World) (r : Reply) :
  position_of request = Some key →
  dict_get key (position_cache w) = None →
  analyze env request w = (r, w') →
  status (http_response r) = 200 →
  ∃ a d board,
    r = ReplyJson a d ∧ cached d = false ∧ fen d = key ∧
    chess_Board env key = Returns board ∧
    completed_evaluations (new_events w w') = 1 ∧
    evaluate_attempts (new_events w w') ≤ 2 ∧
    (∀ x w1, evaluate env board w = (Returns x, w1) →
       ∃ h, new_events w w' = [EvAnalyse h board true; EvPlay h board true]) ∧
    ∃ a2 d2,
      (analyze env request w').1 = ReplyJson a2 d2 ∧
      bestmove d2 = bestmove d ∧ evaluation d2 = evaluation d ∧
      fen d2 = fen d ∧ cached d2 = true ∧
      new_events w' (analyze env request w').2 = [] ∧
      events (analyze env request w').2 = events w' ∧
      position_cache (analyze env request w').2 = position_cache w'.
Proof.
  intros Hpos Hmiss Hr Hstatus.
  pose proof (position_of_nonempty _ _ Hpos) as Hkey.
  rewrite (analyze_position env request key) in * by done.
  destruct (analyze_miss_Json env key w r w' Hkey Hmiss Hr Hstatus)
    as (board & x & w1 & d & Hboard & Heval & -> & -> & Hfen & Hcached).
  destruct (evaluate_or_recover_engine_only env board w)
    as (evs & _ & _ & He & _ & _ & Ha & Hc).
  rewrite Heval in He, Hc. simpl in He, Hc.
  assert (new_events w (remember key d w1) = evs) as Hnew.
  { by apply new_events_app. }
  destruct (remember_lookup key d w1) as [Hget Hheap].
  exists (length (heap w1)), d, board. rewrite Hnew. split_and!; try done.
  - intros x' w1' Hfirst.
    assert (w1 = w1') as <-.
    { revert Heval. unfold evaluate_or_recover, try_except. rewrite Hfirst.
      congruence. }
    destruct (evaluate_Returns env board w x' w1 Hfirst) as (h & _ & _ & _ & ->).
    exists h. simpl in He. rewrite <-(assoc_L (++)) in He.
    by apply app_inv_head in He.
  - rewrite (analyze_hit env key _ d) by done. simpl.
    eexists _, _. split_and!; try done. by apply new_events_same.
Qed.

(** The started server with an answering engine: the first request for
    ["startpos"] is a miss that makes one [analyse] and one [play] call, the
    second is a hit that makes none. *)
Lemma miss_then_hit_witness :
  ∃ a d a2 d2,
    (analyze (answering_engine (Cp 31)) (fen_request "startpos")
       (started (answering_engine (Cp 31)))).1 = ReplyJson a d ∧
    cached d = false ∧
    completed_evaluations
      (new_events (started (answering_engine (Cp 31))) warm_world) = 1 ∧
    (analyze (answering_engine (Cp 31)) (fen_request "startpos")
       warm_world).1 = ReplyJson a2 d2 ∧
    bestmove d2 = bestmove d ∧ evaluation d2 = evaluation d ∧
    cached d2 = true ∧
    new_events warm_world
      (analyze (answering_engine (Cp 31)) (fen_request "startpos")
         warm_world).2 = [].
Proof.
  destruct (miss_then_hit (answering_engine (Cp 31)) (fen_request "startpos")
              "startpos" (started (answering_engine (Cp 31))) warm_world
              (analyze (answering_engine (Cp 31)) (fen_request "startpos")
                 (started (answering_engine (Cp 31)))).1)
    as (a & d & board & Hr & Hcached & _ & _ & Hone & _ & _ &
        a2 & d2 & Hr2 & Hmove & Heval & _ & Hcached2 & Hnone & _);
    try reflexivity.
  exists a, d, a2, d2.
  split; [exact Hr|]. split; [exact Hcached|]. split; [exact Hone|].
  split; [exact Hr2|]. split; [exact Hmove|]. split; [exact Heval|].
  split; [exact Hcached2 | exact Hnone].
Defined.

(** ** Copies *)

Section Copies.
Context (env : Env).

(** Every entry of a well-formed cache is allocated. *)
Lemma world_ok_allocated w k a :
  world_ok env w → (k, a) ∈ position_cache w → a < length (heap w).
Proof.
  intros Hok Hin. destruct (ok_entries env w Hok k a Hin) as (d & Ha & _).
  by apply lookup_lt_Some in Ha.
Qed.

(** The handler is closed under well-formed states. *)
Lemma analyze_world_ok request w :
  world_ok env w → world_ok env (analyze env request w).2.
Proof.
  intros Hok. destruct (position_of request) as [key|] eqn:Hpos.
  - pose proof (position_of_nonempty _ _ Hpos) as Hkey.
    rewrite (analyze_position env request key) by done.
    destruct (dict_get key (position_cache w)) as [a|] eqn:Hget.
    + destruct (ok_entries env w Hok key a) as (d & Ha & _).
      { by apply dict_get_Some_elem. }
      rewrite (analyze_hit env key a d) by done.
      by apply world_ok_serve_cached.
    + destruct (chess_Board env key) as [board|e] eqn:Hboard.
      * rewrite (analyze_miss env key board) by done.
        destruct (evaluate_or_recover_engine_only env board w)
          as (evs & Hc & Hh & _).
        destruct (evaluate_or_recover env board w) as [[[result bmr]|e] w1];
          simpl in *.
        -- assert (world_ok env w1) as Hok1
             by by apply world_ok_engine_only with w.
           destruct (info_score result); [|done].
           destruct (move bmr); [|done].
           by apply (world_ok_remember env key board).
        -- by apply world_ok_engine_only with w.
      * unfold analyze.
        by rewrite analyze_try_fen, Hget, cache_miss_eq, Hboard by done.
  - by destruct (analyze_no_position env request w Hpos) as (? & ? & -> & _).
Qed.

(** The dict a reply was built from is never an entry of the cache. *)
Lemma analyze_reply_fresh request w a d :
  world_ok env w →
  (analyze env request w).1 = ReplyJson a d →
  ∀ k a', (k, a') ∈ position_cache (analyze env request w).2 → a' ≠ a.
Proof.
  intros Hok. destruct (position_of request) as [key|] eqn:Hpos.
  - pose proof (position_of_nonempty _ _ Hpos) as Hkey.
    rewrite (analyze_position env request key) by done.
    destruct (dict_get key (position_cache w)) as [a0|] eqn:Hget.
    + destruct (ok_entries env w Hok key a0) as (d0 & Ha0 & _).
      { by apply dict_get_Some_elem. }
      rewrite (analyze_hit env key a0 d0) by done. simpl.
      intros [= <- <-] k a' Hin.
      apply (world_ok_allocated w k a' Hok) in Hin. lia.
    + destruct (chess_Board env key) as [board|e] eqn:Hboard.
      * rewrite (analyze_miss env key board) by done.
        destruct (evaluate_or_recover_engine_only env board w)
          as (evs & Hc & Hh & _).
        destruct (evaluate_or_recover env board w) as [[[result bmr]|e] w1];
          simpl in *; [|done].
        destruct (info_score result); [|done].
        destruct (move bmr); [|done]. simpl.
        intros [= <- <-] k a' [[= -> ->]|Hin]%dict_set_elem; [lia|].
        assert ((k, a') ∈ position_cache w) as Hin'.
        { rewrite Hc in Hin. revert Hin.
          case_bool_decide; [apply elem_of_tail | done]. }
        apply (world_ok_allocated w k a' Hok) in Hin'. rewrite Hh. lia.
      * unfold analyze.
        by rewrite analyze_try_fen, Hget, cache_miss_eq, Hboard by done.
  - by destruct (analyze_no_position env request w Hpos) as (? & ? & -> & _).
Qed.

End Copies.

(** C9. On a hit, in a well-formed state, the reply is built from a new
    dict, at an address that holds no cache entry, whose items are those of
    the stored entry except that [cached] is true. Marking it has not changed
    the stored entry, which is still allocated with [cached] false, and no
    later write to the returned dict can change it or any other entry. The
    cache itself, keys and order, is as before and no engine call was made.
    More generally, a reply of the handler, hit or miss, is never built from
    a dict that is an entry of the cache. *)
Theorem cache_hit_returns_copy (env : Env) (request request' : outcome JVal)
    (key : string) (a : nat) (w : World) :
  world_ok env w →
  position_of request = Some key →
  dict_get key (position_cache w) = Some a →
  (∃ d, heap w !! a = Some d ∧ cached d = false ∧
     analyze env request w =
       (ReplyJson (length (heap w)) (set_cached true d), serve_cached d w) ∧
     length (heap w) ≠ a ∧
     heap (analyze env request w).2 !! a = Some d ∧
     (∀ k a', (k, a') ∈ position_cache w →
        heap (analyze env request w).2 !! a' = heap w !! a') ∧
     (∀ d' k a', (k, a') ∈ position_cache w →
        <[length (heap w) := d']> (heap (analyze env request w).2) !! a' =
        heap w !! a')) ∧
  position_cache (analyze env request w).2 = position_cache w ∧
  events (analyze env request w).2 = events w ∧
  (∀ a0 d0, (analyze env request' w).1 = ReplyJson a0 d0 →
     ∀ k a', (k, a') ∈ position_cache (analyze env request' w).2 →
       a' ≠ a0 ∧
       ∀ d', <[a0 := d']> (heap (analyze env request' w).2) !! a' =
             heap (analyze env request' w).2 !! a').
Proof.
  intros Hok Hpos Hget.
  pose proof (position_of_nonempty _ _ Hpos) as Hkey.
  rewrite (analyze_position env request key) by done.
  destruct (ok_entries env w Hok key a) as (d & Ha & _ & Hcached).
  { by apply dict_get_Some_elem. }
  rewrite (analyze_hit env key a d) by done. simpl.
  assert (∀ k a', (k, a') ∈ position_cache w →
    (heap w ++ [set_cached true d]) !! a' = heap w !! a') as Hkept.
  { intros k a' Hin. apply lookup_app_l.
    by apply (world_ok_allocated env w k a'). }
  split_and!; try done.
  - exists d. split_and!; try done.
    + apply lookup_lt_Some in Ha. lia.
    + rewrite <-Ha. apply (Hkept key). by apply dict_get_Some_elem.
    + intros d' k a' Hin. rewrite list_lookup_insert_ne; [by apply (Hkept k)|].
      apply (world_ok_allocated env w k a' Hok) in Hin. lia.
  - intros a0 d0 Hreply k a' Hin.
    pose proof (analyze_reply_fresh env request' w a0 d0 Hok Hreply k a' Hin).
    split; [done|]. intros d'. by rewrite list_lookup_insert_ne.
Qed.

(** A second request for ["startpos"]: the reply is built from the new dict
    at address 2, and the stored entry, at address 1, still says
    [cached = false]. *)
Lemma cache_hit_returns_copy_witness :
  ∃ d, heap warm_world !! 1 = Some d ∧ cached d = false ∧
    analyze (answering_engine (Cp 31)) (fen_request "startpos") warm_world =
      (ReplyJson 2 (set_cached true d), serve_cached d warm_world) ∧
    heap (analyze (answering_engine (Cp 31)) (fen_request "startpos")
            warm_world).2 !! 1 = Some d.
Proof.
  destruct (cache_hit_returns_copy (answering_engine (Cp 31))
              (fen_request "startpos") (fen_request "startpos")
              "startpos" 1 warm_world)
    as ((d & Ha & Hcached & Hreply & _ & Hstored & _) & _).
  - apply warm_world_ok.
  - reflexivity.
  - reflexivity.
  - exists d. split; [exact Ha|]. split; [exact Hcached|].
    split; [exact Hreply | exact Hstored].
Defined.

(** ** The lock *)

Lemma lock_inv_arrived n : lock_inv (arrived n).
Proof.
  intros t p [-> _]%lookup_replicate. simpl. split; done.
Qed.

(** A step of one thread leaves the other threads where they are. *)
Lemma thread_step_other t returns s s' t' :
  thread_step t returns s = Some s' → t ≠ t' → pcs s' !! t' = pcs s !! t'.
Proof.
  unfold thread_step. intros Hstep Hne.
  destruct (pcs s !! t) as [p|]; [|done].
  destruct p; try destruct (engine_lock s); simplify_eq; simpl;
    by rewrite list_lookup_insert_ne.
Qed.

(** The step of the thread that moves: its old and its new program point,
    and what happens to the lock. *)
Lemma thread_step_self t returns s s' :
  thread_step t returns s = Some s' →
  ∃ p p', pcs s !! t = Some p ∧ pcs s' !! t = Some p' ∧
    ((p = L106_acquire ∧ p' = L108_analyse true ∧
      engine_lock s = None ∧ engine_lock s' = Some t) ∨
     (∃ ok, p = L113_exit ok ∧ p' = (if ok then L115_store else Done 500) ∧
      engine_lock s' = None) ∨
     (in_block p = in_block p' ∧ engine_lock s' = engine_lock s)).
Proof.
  unfold thread_step. intros Hstep.
  destruct (pcs s !! t) as [p|] eqn:Hp; [|done].
  assert (t < length (pcs s)) as Hlt by by eapply lookup_lt_Some.
  destruct p as [| |first|first|first|first| |ok| |status];
    try destruct (engine_lock s) eqn:Hlock; simplify_eq; simpl;
    eexists _, _; (split; [done|]);
    (split; [by apply list_lookup_insert_eq|]);
    try (by left); try (right; left; by eexists);
    right; right; split; try done;
    by repeat match goal with b : bool |- _ => destruct b end.
Qed.

Lemma thread_step_lock_inv t returns s s' :
  thread_step t returns s = Some s' → lock_inv s → lock_inv s'.
Proof.
  intros Hstep Hinv t' p' Hp'.
  destruct (thread_step_self t returns s s' Hstep)
    as (p & q & Hp & Hq & Hcases).
  destruct (decide (t = t')) as [<-|Hne].
  - rewrite Hq in Hp'. injection Hp' as <-.
    destruct Hcases as [(-> & -> & _ & ->)|[(ok & -> & -> & ->)|[Hb ->]]].
    + done.
    + by destruct ok.
    + rewrite <-Hb. by apply Hinv.
  - rewrite (thread_step_other t returns s s' t' Hstep Hne) in Hp'.
    pose proof (Hinv t' p' Hp') as Hother.
    destruct Hcases as [(-> & -> & Hfree & ->)|[(ok & -> & -> & ->)|[_ ->]]].
    + rewrite Hfree in Hother. split; [|congruence].
      intros Hin. by apply Hother in Hin.
    + assert (engine_lock s = Some t) as Hheld by by apply (Hinv t _ Hp).
      rewrite Hheld in Hother. split; [|done].
      intros Hin. apply Hother in Hin. congruence.
    + done.
Qed.

Lemma interleave_lock_inv schedule : ∀ s s',
  interleave schedule s = Some s' → lock_inv s → lock_inv s'.
Proof.
  induction schedule as [|[t returns] schedule IH]; intros s s'; simpl.
  - by intros [= <-].
  - destruct (thread_step t returns s) as [s1|] eqn:Hstep; [|done].
    intros Hrest Hinv. apply (IH s1); [done|].
    by apply (thread_step_lock_inv t returns s).
Qed.

(** C1 fails in its second half: two requests, both past the block, stand at
    the cache write with the lock free; and a request stands at the cache
    write while the other holds the lock with its evaluation in flight. *)
Lemma cache_write_outside_lock :
  (∃ schedule s, interleave schedule (arrived 2) = Some s ∧
     pcs s = [L115_store; L115_store] ∧ engine_lock s = None) ∧
  (∃ schedule s, interleave schedule (arrived 2) = Some s ∧
     pcs s = [L115_store; In_analyse true] ∧ engine_lock s = Some 1).
Proof.
  split.
  - exists [(0, true); (0, true); (0, true); (0, true); (0, true); (0, true);
            (0, true); (1, true); (1, true); (1, true); (1, true); (1, true);
            (1, true); (1, true)].
    eexists. split; [reflexivity|]. by split.
  - exists [(0, true); (1, true); (0, true); (0, true); (0, true); (0, true);
            (0, true); (0, true); (1, true); (1, true)].
    eexists. split; [reflexivity|]. by split.
Qed.

(** C1, as the code has it. In every state that [n] concurrent requests can
    reach, by any interleaving and whatever the engine does: a thread is
    between line 106 and the end of the [with] block, so in particular has an
    evaluation in flight, only while it holds [engine_lock]; hence no two
    threads are in the block, and no two evaluations are in flight, at the
    same time. The lock spans the evaluate-or-recover sequence and nothing
    more: a thread at the cache write of lines 128-130 does not hold it. *)
Theorem engine_lock_guards_engine (n : nat) (schedule : list (nat * bool))
    (s : Threads) :
  interleave schedule (arrived n) = Some s →
  (∀ t p, pcs s !! t = Some p → in_block p = true → engine_lock s = Some t) ∧
  (∀ t1 t2 p1 p2, pcs s !! t1 = Some p1 → pcs s !! t2 = Some p2 →
     in_flight p1 = true → in_flight p2 = true → t1 = t2) ∧
  (∀ t1 t2 p1 p2, pcs s !! t1 = Some p1 → pcs s !! t2 = Some p2 →
     in_block p1 = true → in_block p2 = true → t1 = t2) ∧
  (∀ t, pcs s !! t = Some L115_store → engine_lock s ≠ Some t).
Proof.
  intros Hreach.
  assert (lock_inv s) as Hinv.
  { apply (interleave_lock_inv schedule (arrived n)); [done|].
    apply lock_inv_arrived. }
  assert (∀ t1 t2 p1 p2, pcs s !! t1 = Some p1 → pcs s !! t2 = Some p2 →
    in_block p1 = true → in_block p2 = true → t1 = t2) as Hexcl.
  { intros t1 t2 p1 p2 H1 H2 Hb1 Hb2.
    apply (Hinv t1 p1 H1) in Hb1. apply (Hinv t2 p2 H2) in Hb2. congruence. }
  split_and!.
  - intros t p Hp Hb. by apply (Hinv t p Hp).
  - intros t1 t2 p1 p2 H1 H2 Hf1 Hf2. apply (Hexcl t1 t2 p1 p2); try done.
    + by destruct p1.
    + by destruct p2.
  - done.
  - intros t Hp Hheld. by apply (Hinv t _ Hp) in Hheld.
Qed.

(** Three requests: the first holds the lock inside [engine.analyse], the
    second waits at line 106 and cannot move, the third has not started. *)
Lemma engine_lock_guards_engine_witness :
  interleave [(0, true); (1, true); (0, true); (0, true)] (arrived 3) =
    Some {| engine_lock := Some 0;
            pcs := [In_analyse true; L106_acquire; L99_lookup] |} ∧
  thread_step 1 true
    {| engine_lock := Some 0;
       pcs := [In_analyse true; L106_acquire; L99_lookup] |} = None ∧
  (∀ t1 t2 p1 p2,
     [In_analyse true; L106_acquire; L99_lookup] !! t1 = Some p1 →
     [In_analyse true; L106_acquire; L99_lookup] !! t2 = Some p2 →
     in_flight p1 = true → in_flight p2 = true → t1 = t2).
Proof.
  split; [reflexivity|]. split; [reflexivity|].
  apply (engine_lock_guards_engine 3
           [(0, true); (1, true); (0, true); (0, true)]
           {| engine_lock := Some 0;
              pcs := [In_analyse true; L106_acquire; L99_lookup] |}).
  reflexivity.
Defined.

(** * Further properties *)

(** ** The cache, put and get *)

(** X1. A put that no other request interrupts, that is lines 128-130 run
    in one piece ([cache_put]), returns, and a get of the key just put finds
    the value put, also on a full cache. Every other key keeps its value,
    except that on a full cache the oldest key is gone. The keys stay
    pairwise distinct. *)
Theorem put_then_get {V} (k : string) (v : V) (d : list (string * V)) :
  NoDup (dict_keys d) →
  ∃ d', cache_put k v d = Returns d' ∧
    dict_get k d' = Some v ∧
    NoDup (dict_keys d') ∧
    (∀ k', k' ≠ k → length d < MAX_CACHE_SIZE →
       dict_get k' d' = dict_get k' d) ∧
    (∀ k', k' ≠ k → MAX_CACHE_SIZE ≤ length d →
       dict_get k' d' =
       if decide (dict_first d = Some k') then None else dict_get k' d).
Proof.
  intros Hnd.
  destruct (cache_put_cases k v d) as [[Hfull E]|[Hroom E]]; rewrite E;
    eexists; split; try done; split_and!.
  - apply dict_get_set_eq.
  - eapply cache_put_keys_NoDup; eauto.
  - intros. lia.
  - intros k' Hne _. rewrite dict_get_set_ne by done.
    destruct d as [|[k0 v0] d]; simpl; [done|].
    apply NoDup_cons in Hnd as [Hk0 _].
    destruct (decide (k0 = k')) as [->|Hne0].
    + rewrite decide_True by done. by apply dict_get_None.
    + rewrite decide_False by congruence. done.
  - apply dict_get_set_eq.
  - eapply cache_put_keys_NoDup; eauto.
  - intros k' Hne _. by apply dict_get_set_ne.
  - intros. lia.
Qed.

(** On the full cache ["k0"] ... ["k511"], putting ["k512"] makes it
    readable, drops ["k0"] and keeps ["k1"]. *)
Lemma put_then_get_witness :
  ∃ d', cache_put (key_of 512) 512 (distinct_puts 512) = Returns d' ∧
    dict_get (key_of 512) d' = Some 512 ∧
    dict_get (key_of 0) d' = None ∧
    dict_get (key_of 1) d' = Some 1.
Proof.
  destruct (put_then_get (key_of 512) 512 (distinct_puts 512))
    as (d' & Hput & Hget & _ & _ & Hfull).
  - apply (bool_decide_unpack _). vm_compute. exact I.
  - exists d'. split; [exact Hput|]. split; [exact Hget|]. split.
    + rewrite (Hfull (key_of 0)); [reflexivity|done|vm_compute; lia].
    + rewrite (Hfull (key_of 1)); [reflexivity|done|vm_compute; lia].
Defined.

(** ** Replies *)

Section Replies.
Context (env : Env).

(** A request with a position is not one of the two bad requests. *)
Lemma position_of_not_bad request key :
  position_of request = Some key → is_bad_request request = false.
Proof.
  intros Hpos. pose proof (position_of_nonempty _ _ Hpos) as Hkey.
  unfold position_of in Hpos. unfold is_bad_request.
  destruct request as [[| | | |?|members]|]; try done.
  destruct (dict_get "fen" members) as [[| | |s| |]|] eqn:Hget; try done.
  destruct (String.eqb s "") eqn:E; [done|]. injection Hpos as ->.
  destruct members as [|m ms]; [done|]. simpl. by rewrite E.
Qed.

(** A hit on an entry that is not allocated raises and changes nothing. *)
Lemma cache_hit_unallocated a w :
  heap w !! a = None →
  cache_hit a w = (Raises (LibraryError "unallocated object"), w).
Proof.
  intros Ha. unfold cache_hit, dict_copy, heap_read, mbind, M_bind.
  by rewrite Ha.
Qed.

(** The replies of the handler to a request that carries a position. *)
Lemma analyze_position_cases key w :
  key ≠ "" →
  (∃ a d, (analyze env (fen_request key) w).1 = ReplyJson a d) ∨
  (∃ msg, (analyze env (fen_request key) w).1 = ReplyError msg 500 ∧
     position_cache (analyze env (fen_request key) w).2 = position_cache w ∧
     heap (analyze env (fen_request key) w).2 = heap w).
Proof.
  intros Hkey.
  destruct (dict_get key (position_cache w)) as [a|] eqn:Hget.
  - destruct (heap w !! a) as [d|] eqn:Ha.
    + left. rewrite (analyze_hit env key a d) by done. eauto.
    + right. unfold analyze.
      rewrite analyze_try_fen, Hget, cache_hit_unallocated by done. eauto.
  - destruct (chess_Board env key) as [board|e] eqn:Hboard.
    + rewrite (analyze_miss env key board) by done.
      destruct (evaluate_or_recover_engine_only env board w)
        as (evs & Hc & Hh & _).
      destruct (evaluate_or_recover env board w) as [[[result bmr]|e] w1];
        simpl in *; [|right; eauto].
      destruct (info_score result); [|right; eauto].
      destruct (move bmr); [left|right]; eauto.
    + right. unfold analyze.
      rewrite analyze_try_fen, Hget, cache_miss_eq, Hboard by done. eauto.
Qed.

(** The replies of the handler, by kind of request. *)
Lemma analyze_cases request w :
  (∃ a d, (analyze env request w).1 = ReplyJson a d ∧
     is_bad_request request = false) ∨
  (∃ msg, analyze env request w = (ReplyError msg 400, w) ∧
     is_bad_request request = true) ∨
  (∃ msg, (analyze env request w).1 = ReplyError msg 500 ∧
     is_bad_request request = false ∧
     position_cache (analyze env request w).2 = position_cache w ∧
     heap (analyze env request w).2 = heap w).
Proof.
  destruct (position_of request) as [key|] eqn:Hpos.
  - pose proof (position_of_nonempty _ _ Hpos) as Hkey.
    pose proof (position_of_not_bad _ _ Hpos) as Hbad.
    rewrite (analyze_position env request key) by done.
    destruct (analyze_position_cases key w Hkey) as [(a & d & ?)|(msg & ?)].
    + left. eauto.
    + right. right. exists msg. naive_solver.
  - unfold analyze, analyze_try, mbind, M_bind, lift.
    destruct request as [data|e]; [|right; right; eauto].
    destruct (truthy data) eqn:Hdata; cbn [negb];
      [|right; left; eexists; split; [done|]; simpl; by rewrite Hdata].
    unfold data_get, is_bad_request. rewrite Hdata. cbn [negb orb].
    destruct data as [| | | |?|members];
      try (right; right; eexists; by split_and!).
    simpl in Hpos.
    destruct (dict_get "fen" members) as [fen|];
      [change (default JNull (Some fen)) with fen
      |change (default JNull None) with JNull; right; left; eauto].
    destruct (truthy fen) eqn:Hfen; cbn [negb]; [|right; left; eauto].
    destruct fen as [| | |s| |]; simpl in Hfen |- *; rewrite ?Hfen;
      unfold raise; simpl;
      try (right; right; eexists; by split_and!). apply negb_true_iff in Hfen. by rewrite Hfen in Hpos.
Qed.

End Replies.

(** X2. Whatever the request and whatever the engine does, the handler
    answers with status 200, 400 or 500. The status is 200 exactly when the
    reply is the JSON of a result. It is 400 exactly for the two tests of
    lines 90-96: [get_json()] returns a body that is false ([None], [{}],
    [[]], [""], [0], [False]), or an object whose ["fen"] is missing or
    false; a 400 leaves the whole state of the server as it was. When
    [get_json()] raises, or returns a body that is true and is not an object
    (a list, a string, a number, [True]), the status is 500 and the state is
    as it was. *)
Theorem reply_status (env : Env) (request : outcome JVal) (w : World) :
  (status (http_response (analyze env request w).1) = 200 ∨
   status (http_response (analyze env request w).1) = 400 ∨
   status (http_response (analyze env request w).1) = 500) ∧
  (status (http_response (analyze env request w).1) = 200 ↔
   ∃ a d, (analyze env request w).1 = ReplyJson a d) ∧
  (status (http_response (analyze env request w).1) = 400 ↔
   is_bad_request request = true) ∧
  (is_bad_request request = true → (analyze env request w).2 = w) ∧
  (∀ e, request = Raises e →
     analyze env request w = (ReplyError (str e) 500, w)) ∧
  (∀ data, request = Returns data → truthy data = true →
     (∀ members, data ≠ JObj members) →
     status (http_response (analyze env request w).1) = 500 ∧
     (analyze env request w).2 = w).
Proof.
  assert
    ((status (http_response (analyze env request w).1) = 200 ∨
      status (http_response (analyze env request w).1) = 400 ∨
      status (http_response (analyze env request w).1) = 500) ∧
     (status (http_response (analyze env request w).1) = 200 ↔
      ∃ a d, (analyze env request w).1 = ReplyJson a d) ∧
     (status (http_response (analyze env request w).1) = 400 ↔
      is_bad_request request = true) ∧
     (is_bad_request request = true → (analyze env request w).2 = w))
    as (Hcodes & Hok & Hbad & Hsame).
  { destruct (analyze_cases env request w)
      as [(a & d & E & Hbad)|[(msg & E & Hbad)|(msg & E & Hbad & _)]];
      rewrite ?E, ?Hbad; simpl; split_and!; try naive_solver. }
  split_and!; try done.
  - by intros e ->.
  - intros data -> Hdata Hobj.
    unfold analyze, analyze_try, mbind, M_bind, lift, data_get.
    rewrite Hdata. cbn [negb].
    destruct data; simpl; try done. by destruct (Hobj members).
Qed.

(** X3. A reply that is an error never comes with a change of the cache or
    of a dict object: whenever the handler answers 400 or 500, also after the
    engine was called, every entry is as it was. *)
Theorem error_reply_keeps_cache (env : Env) (request : outcome JVal)
    (w : World) (msg : string) (code : nat) :
  (analyze env request w).1 = ReplyError msg code →
  position_cache (analyze env request w).2 = position_cache w ∧
  heap (analyze env request w).2 = heap w ∧
  (code = 400 ∨ code = 500).
Proof.
  intros Hreply.
  destruct (analyze_cases env request w)
    as [(a & d & E & _)|[(msg' & E & _)|(msg' & E & _ & Hc & Hh)]].
  - congruence.
  - rewrite E in *. simpl in *. simplify_eq. auto.
  - rewrite E in Hreply. simplify_eq. auto.
Qed.

(** With [scoreless_engine] the evaluation runs, the reply is 500 and the
    cache of [warm_world] keeps its entry. *)
Lemma error_reply_keeps_cache_witness :
  (analyze scoreless_engine (fen_request "8/8/8/8/8/8/8/K6k w - - 0 1")
     warm_world).1 = ReplyError "'score'" 500 ∧
  completed_evaluations
    (new_events warm_world
       (analyze scoreless_engine (fen_request "8/8/8/8/8/8/8/K6k w - - 0 1")
          warm_world).2) = 1 ∧
  position_cache
    (analyze scoreless_engine (fen_request "8/8/8/8/8/8/8/K6k w - - 0 1")
       warm_world).2 = position_cache warm_world ∧
  heap (analyze scoreless_engine (fen_request "8/8/8/8/8/8/8/K6k w - - 0 1")
          warm_world).2 = heap warm_world.
Proof.
  destruct (error_reply_keeps_cache scoreless_engine
              (fen_request "8/8/8/8/8/8/8/K6k w - - 0 1") warm_world
              "'score'" 500) as (Hcache & Hheap & _); [reflexivity|].
  split; [reflexivity|]. split; [reflexivity|].
  split; [exact Hcache | exact Hheap].
Defined.

(** ** Starting and stopping the engine *)

(** X4. [initialize_engine] raises exactly what [popen_uci] or [configure]
    raises: an exception of the [engine.quit()] before them is swallowed and
    the start is attempted all the same. When [popen_uci] raises, the global
    [engine] still refers to the old process, the one just told to quit, and
    [configure] was not called; when it returns, [engine] is the process this
    call started, also when [configure] then raises. The cache and the dict
    objects are not touched. *)
Theorem initialize_engine_outcome (env : Env) (w : World) :
  position_cache (initialize_engine env w).2 = position_cache w ∧
  heap (initialize_engine env w).2 = heap w ∧
  match popen_uci env (events w ++ quit_events env w) with
  | Some e =>
      (initialize_engine env w).1 = Raises e ∧
      engine (initialize_engine env w).2 = engine w ∧
      events (initialize_engine env w).2 =
        events w ++ quit_events env w ++ [EvPopen false]
  | None =>
      engine (initialize_engine env w).2 =
        Some (length (events w ++ quit_events env w)) ∧
      match engine_configure env
              (events w ++ quit_events env w ++ [EvPopen true])
              (length (events w ++ quit_events env w)) with
      | None =>
          (initialize_engine env w).1 = Returns () ∧
          events (initialize_engine env w).2 =
            events w ++ quit_events env w ++
            [EvPopen true;
             EvConfigure (length (events w ++ quit_events env w)) true]
      | Some e =>
          (initialize_engine env w).1 = Raises e ∧
          events (initialize_engine env w).2 =
            events w ++ quit_events env w ++
            [EvPopen true;
             EvConfigure (length (events w ++ quit_events env w)) false]
      end
  end.
Proof.
  destruct (initialize_engine_engine_only env w) as (evs & Hc & Hh & _).
  split; [done|]. split; [done|]. clear.
  unfold initialize_engine, try_except, mbind, M_bind, mret, M_ret, get_world,
    quit, popen, configure, quit_events.
  destruct (engine w) as [h|] eqn:Hh; simpl; rewrite ?Hh, ?app_nil_r;
    [destruct (engine_quit env (events w) h); simpl|];
    (destruct (popen_uci env _); simpl; rewrite <-?(assoc_L (++)); simpl;
     [done|]);
    destruct (engine_configure env _ _); simpl;
    rewrite <-?(assoc_L (++)); by split_and!.
Qed.

(** X5. [cleanup] never raises: it calls [engine.quit()] once when there is
    an engine, swallows whatever that raises, and changes nothing else;
    [engine] still refers to the process it told to quit. *)
Theorem cleanup_never_raises (env : Env) (w : World) :
  cleanup env w =
    (Returns (),
     {| engine := engine w; position_cache := position_cache w;
        heap := heap w; events := events w ++ quit_events env w |}).
Proof.
  unfold cleanup, try_except, mbind, M_bind, mret, M_ret, get_world, quit,
    quit_events.
  destruct (engine w) as [h|] eqn:Hh; simpl; rewrite ?Hh.
  - destruct (engine_quit env (events w) h); unfold log; by rewrite Hh.
  - rewrite app_nil_r. destruct w; simpl in *. by subst.
Qed.

(** ** A recovery that succeeds *)

Section RecoverySucceeds.
Context (env : Env).

(** When [initialize_engine] returns, [engine] is a process started by this
    call, after everything the trace held before. *)
Lemma initialize_engine_Returns w w' :
  initialize_engine env w = (Returns (), w') →
  ∃ h' evs, engine w' = Some h' ∧ length (events w) ≤ h' ∧
    events w' = events w ++ evs ∧ restarts evs = 1 ∧
    completed_evaluations evs = 0.
Proof.
  unfold initialize_engine, try_except, mbind, M_bind, mret, M_ret, get_world,
    quit, popen, configure.
  destruct (engine w) as [h|] eqn:Hh; simpl; rewrite ?Hh;
    [destruct (engine_quit env (events w) h); simpl|];
    (destruct (popen_uci env _); simpl; [done|]);
    (destruct (engine_configure env _ _); simpl; [done|]);
    intros [= <-]; simpl; eexists _, _;
    (split; [done|]); rewrite ?length_app; (split; [simpl; lia|]);
    rewrite <-?(assoc_L (++)); by split_and!.
Qed.

Lemma evaluate_events board w :
  ∃ evs, events (evaluate env board w).2 = events w ++ evs ∧
    restarts evs = 0.
Proof.
  destruct (evaluate_engine_only env board w) as (evs & _ & _ & He & Hr & _).
  exists evs. split; [done|]. lia.
Qed.

End RecoverySucceeds.

(** X6. When the first evaluation of an uncached position raises and the
    re-initialisation and the retry return, the handler answers 200 with the
    move and the score of the retry, tagged [cached = false], and stores the
    result under the position. Exactly one restart was attempted and one
    evaluation completed, and that evaluation ran on the replacement, a
    process other than the one [engine] referred to when the request came
    in; [engine] refers to the replacement afterwards. *)
Theorem recovery_succeeds (env : Env) (request : outcome JVal) (key : string)
    (board : Board) (w w1 w2 : World) (e1 : PyExn) (result : InfoDict)
    (bestmove_result : PlayResult) (pov : PovScore) (m : Move) :
  engine_known w →
  position_of request = Some key →
  dict_get key (position_cache w) = None →
  chess_Board env key = Returns board →
  evaluate env board w = (Raises e1, w1) →
  (initialize_engine env;; evaluate env board) w1 =
    (Returns (result, bestmove_result), w2) →
  info_score result = Some pov →
  move bestmove_result = Some m →
  ∃ d h',
    analyze env request w =
      (ReplyJson (length (heap w)) d, remember key d w2) ∧
    bestmove d = uci m ∧ evaluation d = evaluation_of (white pov) ∧
    fen d = key ∧ cached d = false ∧
    dict_get key (position_cache (remember key d w2)) =
      Some (S (length (heap w))) ∧
    heap (remember key d w2) !! S (length (heap w)) = Some d ∧
    restarts (new_events w w2) = 1 ∧
    completed_evaluations (new_events w w2) = 1 ∧
    engine (remember key d w2) = Some h' ∧ engine w ≠ Some h' ∧
    ∃ evs, events w2 =
      events w ++ evs ++ [EvAnalyse h' board true; EvPlay h' board true].
Proof.
  intros Hknown Hpos Hmiss Hboard Hfirst Hretry Hscore Hmove.
  pose proof (position_of_nonempty _ _ Hpos) as Hkey.
  rewrite (analyze_position env request key) by done.
  rewrite (analyze_miss env key board) by done.
  destruct (evaluate_or_recover_engine_only env board w)
    as (evs & _ & Hheap & He & _ & _ & _ & Hc).
  assert (evaluate_or_recover env board w =
            (Returns (result, bestmove_result), w2)) as Hblock.
  { unfold evaluate_or_recover, try_except. by rewrite Hfirst. }
  rewrite Hblock in *. simpl in Hheap, He, Hc. rewrite Hscore, Hmove.
  pose proof (new_events_app _ _ evs He) as Hnew.
  destruct (evaluate_events env board w) as (evs1 & He1 & Hr1).
  rewrite Hfirst in He1. simpl in He1.
  unfold mbind, M_bind in Hretry.
  destruct (initialize_engine env w1) as [[[]|e] wi] eqn:Hinit; [|done].
  destruct (initialize_engine_Returns env w1 wi Hinit)
    as (h' & evs2 & Hh' & Hle & He2 & Hr2 & _).
  destruct (evaluate_Returns env board wi _ w2 Hretry)
    as (h & Hh & _ & _ & ->).
  assert (h = h') as -> by congruence.
  destruct (remember_lookup key
              {| bestmove := uci m; evaluation := evaluation_of (white pov);
                 fen := key; cached := false |}
              (log (EvPlay h' board true) (log (EvAnalyse h' board true) wi)))
    as [Hget Hstored].
  rewrite Hheap in *. simpl in He.
  eexists _, h'. split_and!; try done.
  - rewrite Hnew.
    rewrite He2, He1, <-!(assoc_L (++)) in He.
    apply app_inv_head in He as <-.
    unfold restarts in *. rewrite !count_app, Hr1, Hr2. by cbv.
  - by rewrite Hnew.
  - intros Hold. apply Hknown in Hold. rewrite He1, length_app in Hle. lia.
  - exists (evs1 ++ evs2). simpl.
    by rewrite He2, He1, <-!(assoc_L (++)).
Qed.

(** The process of the started server has died and can be restarted: the
    request is answered after one restart, by process 4 and not process 0. *)
Lemma recovery_succeeds_witness :
  ∃ d, (analyze restartable_engine (fen_request "startpos")
          (started restartable_engine)).1 = ReplyJson 0 d ∧
    cached d = false ∧ evaluation d = 31%Z ∧
    engine (started restartable_engine) = Some 0 ∧
    engine (analyze restartable_engine (fen_request "startpos")
              (started restartable_engine)).2 = Some 4 ∧
    restarts
      (new_events (started restartable_engine)
         (analyze restartable_engine (fen_request "startpos")
            (started restartable_engine)).2) = 1.
Proof.
  destruct (recovery_succeeds restartable_engine (fen_request "startpos")
              "startpos" {| board_fen := "startpos" |}
              (started restartable_engine)
              (evaluate restartable_engine {| board_fen := "startpos" |}
                 (started restartable_engine)).2
              (evaluate_or_recover restartable_engine
                 {| board_fen := "startpos" |}
                 (started restartable_engine)).2
              (LibraryError "engine process died")
              {| info_score := Some {| white := Cp 31 |} |}
              {| move := Some {| uci := "e2e4" |} |}
              {| white := Cp 31 |} {| uci := "e2e4" |})
    as (d & h' & Hreply & _ & Heval & _ & Hcached & _ & _ & Hone & _);
    try reflexivity.
  - intros h [= <-]. simpl. lia.
  - exists d. rewrite Hreply. split; [reflexivity|].
    split; [exact Hcached|]. split; [exact Heval|].
    split; [reflexivity|]. split; [reflexivity | exact Hone].
Defined.

(** ** Any run of requests *)

Section Runs.
Context (env : Env).

Lemma world_ok_started : world_ok env (started env).
Proof.
  unfold started, startup.
  destruct (initialize_engine_engine_only env initial_world)
    as (evs & Hc & Hh & _).
  apply world_ok_engine_only with initial_world; [done..|].
  apply world_ok_initial.
Qed.

Lemma serve_world_ok requests : ∀ w,
  world_ok env w → world_ok env (serve env requests w).
Proof.
  induction requests as [|request requests IH]; intros w Hok; simpl; [done|].
  by apply IH, analyze_world_ok.
Qed.

(** The first key of a dict with distinct keys is not found in the rest. *)
Lemma dict_get_tail {V} k (d : list (string * V)) :
  NoDup (dict_keys d) →
  dict_get k (tail d) =
  if decide (dict_first d = Some k) then None else dict_get k d.
Proof.
  destruct d as [|[k0 v0] d]; simpl; [done|].
  intros [Hk0 _]%NoDup_cons.
  destruct (decide (k0 = k)) as [->|Hne].
  - rewrite decide_True by done. by apply dict_get_None.
  - by rewrite decide_False by congruence.
Qed.

End Runs.

(** X7. After the start of the server and any run of requests, whatever the
    engine did, the cache holds at most 512 entries under pairwise distinct
    keys, and every entry is an allocated dict whose ["fen"] is its key and
    whose ["cached"] is false, under a key that [chess.Board] accepts. *)
Theorem served_cache_sound (env : Env) (requests : list (outcome JVal)) :
  length (position_cache (serve env requests (started env))) ≤ 512 ∧
  NoDup (dict_keys (position_cache (serve env requests (started env)))) ∧
  ∀ k a, (k, a) ∈ position_cache (serve env requests (started env)) →
    ∃ d board, heap (serve env requests (started env)) !! a = Some d ∧
      fen d = k ∧ cached d = false ∧ chess_Board env k = Returns board.
Proof.
  pose proof (serve_world_ok env requests (started env) (world_ok_started env))
    as [Hkeys Hsize Hentries Hparsed].
  split_and!; [done..|].
  intros k a Hin. destruct (Hentries k a Hin) as (d & ? & ? & ?).
  destruct (Hparsed k) as [board ?]; [apply dict_keys_elem; eauto|].
  by exists d, board.
Qed.

(** X8. In a well-formed state, a 200 reply to a request that carries a
    position always has that position as its ["fen"], and its ["cached"]
    tells whether the position was in the cache when the request came in:
    true for a hit, which makes no engine call, false for a miss. *)
Theorem reply_echoes_position (env : Env) (request : outcome JVal)
    (key : string) (w : World) (a : nat) (d : RespDict) :
  world_ok env w →
  position_of request = Some key →
  (analyze env request w).1 = ReplyJson a d →
  fen d = key ∧
  (cached d = true ↔ is_Some (dict_get key (position_cache w))) ∧
  (cached d = true → events (analyze env request w).2 = events w) ∧
  a = length (heap w).
Proof.
  intros Hok Hpos.
  pose proof (position_of_nonempty _ _ Hpos) as Hkey.
  rewrite (analyze_position env request key) by done.
  destruct (dict_get key (position_cache w)) as [a0|] eqn:Hget.
  - destruct (ok_entries env w Hok key a0) as (d0 & Ha0 & Hfen & Hcached).
    { by apply dict_get_Some_elem. }
    rewrite (analyze_hit env key a0 d0) by done. simpl.
    intros [= <- <-]. split_and!; eauto. split; eauto.
  - destruct (chess_Board env key) as [board|e] eqn:Hboard.
    + rewrite (analyze_miss env key board) by done.
      destruct (evaluate_or_recover_engine_only env board w)
        as (evs & _ & Hh & _).
      destruct (evaluate_or_recover env board w) as [[[result bmr]|e] w1];
        simpl in *; [|done].
      destruct (info_score result); [|done].
      destruct (move bmr); [|done]. simpl.
      intros [= <- <-]. simpl. split_and!; try done. by rewrite Hh.
    + unfold analyze.
      by rewrite analyze_try_fen, Hget, cache_miss_eq, Hboard by done.
Qed.

(** A second request for ["startpos"] is answered from the cache, with
    ["startpos"] as its ["fen"]. *)
Lemma reply_echoes_position_witness :
  ∃ d, (analyze (answering_engine (Cp 31)) (fen_request "startpos")
          warm_world).1 = ReplyJson 2 d ∧
    fen d = "startpos" ∧ cached d = true.
Proof.
  destruct (reply_echoes_position (answering_engine (Cp 31))
              (fen_request "startpos") "startpos" warm_world 2
              {| bestmove := "e2e4"; evaluation := 31; fen := "startpos";
                 cached := true |})
    as (Hfen & _); [apply warm_world_ok | reflexivity..|].
  eexists. split; [reflexivity|]. split; [exact Hfen | reflexivity].
Defined.

(** X9. A miss that succeeds, in a well-formed state, stores its result
    under the requested position and touches no other key: every other key
    found afterwards was there before, bound to the same unchanged dict. With
    room in the cache every other key is kept; on a full cache exactly the
    oldest key is dropped and every other one is kept. *)
Theorem miss_keeps_other_entries (env : Env) (request : outcome JVal)
    (key : string) (w : World) (a : nat) (d : RespDict) :
  world_ok env w →
  position_of request = Some key →
  dict_get key (position_cache w) = None →
  (analyze env request w).1 = ReplyJson a d →
  dict_get key (position_cache (analyze env request w).2) = Some (S a) ∧
  heap (analyze env request w).2 !! S a = Some d ∧
  (∀ k a0, k ≠ key →
     dict_get k (position_cache (analyze env request w).2) = Some a0 →
     dict_get k (position_cache w) = Some a0 ∧
     heap (analyze env request w).2 !! a0 = heap w !! a0) ∧
  (∀ k, k ≠ key →
     dict_get k (position_cache (analyze env request w).2) =
     if decide (MAX_CACHE_SIZE ≤ length (position_cache w) ∧
                dict_first (position_cache w) = Some k)
     then None else dict_get k (position_cache w)).
Proof.
  intros Hok Hpos Hmiss.
  pose proof (position_of_nonempty _ _ Hpos) as Hkey.
  rewrite (analyze_position env request key) by done.
  intros Hreply.
  destruct (analyze_miss_Json env key w _ _ Hkey Hmiss
              (surjective_pairing _)) as
    (board & x & w1 & d' & Hboard & Heval & Hr & Hw' & Hfen & Hcached).
  { by rewrite Hreply. }
  rewrite Hw'. rewrite Hr in Hreply. injection Hreply as <- <-.
  destruct (evaluate_or_recover_engine_only env board w)
    as (evs & Hc & Hh & _).
  rewrite Heval in Hc, Hh. simpl in Hc, Hh.
  destruct (remember_lookup key d' w1) as [Hget Hstored].
  assert (∀ k, k ≠ key →
    dict_get k (position_cache (remember key d' w1)) =
    if decide (MAX_CACHE_SIZE ≤ length (position_cache w) ∧
               dict_first (position_cache w) = Some k)
    then None else dict_get k (position_cache w)) as Hother.
  { intros k Hne. simpl. rewrite dict_get_set_ne by done. rewrite Hc.
    case_bool_decide as Hfull.
    - rewrite dict_get_tail by apply Hok.
      destruct (decide (dict_first (position_cache w) = Some k)).
      + by rewrite decide_True.
      + rewrite decide_False; [done|]. by intros [_ ?].
    - rewrite decide_False; [done|]. by intros [? _]. }
  split_and!; try done.
  intros k a0 Hne Hget0. rewrite (Hother k Hne) in Hget0.
  case_decide; [done|]. split; [done|]. simpl.
  rewrite Hh. apply lookup_app_l.
  eapply world_ok_allocated; [done|]. by apply dict_get_Some_elem.
Qed.

(** After ["startpos"], a request for another position is a miss that
    leaves the entry of ["startpos"] where it was. *)
Lemma miss_keeps_other_entries_witness :
  dict_get "startpos"
    (position_cache
       (analyze (answering_engine (Cp 31))
          (fen_request "8/8/8/8/8/8/8/K6k w - - 0 1") warm_world).2) =
  dict_get "startpos" (position_cache warm_world).
Proof.
  destruct (miss_keeps_other_entries (answering_engine (Cp 31))
              (fen_request "8/8/8/8/8/8/8/K6k w - - 0 1")
              "8/8/8/8/8/8/8/K6k w - - 0 1" warm_world 2
              {| bestmove := "e2e4"; evaluation := 31;
                 fen := "8/8/8/8/8/8/8/K6k w - - 0 1"; cached := false |})
    as (_ & _ & _ & Hother);
    [apply warm_world_ok | reflexivity..|].
  rewrite (Hother "startpos"); [reflexivity | done].
Defined.

(** ** The lock is released, and every request ends *)

Lemma thread_step_holder t returns s s' :
  thread_step t returns s = Some s' → holder_in_block s → holder_in_block s'.
Proof.
  intros Hstep Hheld t' Hlock'.
  destruct (thread_step_self t returns s s' Hstep)
    as (p & q & Hp & Hq & Hcases).
  destruct Hcases as [(-> & -> & _ & Hl)|[(ok & -> & -> & Hl)|[Hb Hl]]].
  - rewrite Hl in Hlock'. injection Hlock' as <-. eauto.
  - congruence.
  - rewrite Hl in Hlock'. destruct (Hheld t' Hlock') as (p' & Hp' & Hin).
    destruct (decide (t = t')) as [<-|Hne].
    + exists q. split; [done|]. rewrite <-Hb. congruence.
    + exists p'. split; [|done].
      by rewrite (thread_step_other t returns s s' t' Hstep Hne).
Qed.

Lemma interleave_holder schedule : ∀ s s',
  interleave schedule s = Some s' → holder_in_block s → holder_in_block s'.
Proof.
  induction schedule as [|[t returns] schedule IH]; intros s s'; simpl.
  - by intros [= <-].
  - destruct (thread_step t returns s) as [s1|] eqn:Hstep; [|done].
    intros Hrest Hinv. apply (IH s1); [done|].
    by apply (thread_step_holder t returns s).
Qed.

(** A thread that is neither done nor waiting for the lock can move. *)
Lemma thread_step_enabled t p returns s :
  pcs s !! t = Some p → is_done p = false →
  (p = L106_acquire → engine_lock s = None) →
  is_Some (thread_step t returns s).
Proof.
  intros Hp Hdone Hfree. unfold thread_step. rewrite Hp.
  destruct p; try done; try by eexists.
  rewrite Hfree by done. by eexists.
Qed.

(** X10. In every state that [n] concurrent requests can reach, the lock is
    held only by a thread that is inside the [with] block: it is never left
    behind by a request that has ended, normally or with an exception, and
    once every request is done the lock is free. *)
Theorem engine_lock_never_leaked (n : nat) (schedule : list (nat * bool))
    (s : Threads) :
  interleave schedule (arrived n) = Some s →
  (∀ t, engine_lock s = Some t →
     ∃ p, pcs s !! t = Some p ∧ in_block p = true ∧ is_done p = false) ∧
  ((∀ t p, pcs s !! t = Some p → is_done p = true) → engine_lock s = None).
Proof.
  intros Hreach.
  assert (holder_in_block s) as Hheld.
  { apply (interleave_holder schedule (arrived n)); [done|]. by intros t. }
  split.
  - intros t Hlock. destruct (Hheld t Hlock) as (p & Hp & Hin).
    exists p. split_and!; try done. by destruct p.
  - intros Hall. destruct (engine_lock s) as [t|] eqn:Hlock; [|done].
    destruct (Hheld t Hlock) as (p & Hp & Hin).
    specialize (Hall t p Hp). by destruct p.
Qed.

(** Two requests run to their end, the first through a failed recovery:
    both are done and the lock is free. *)
Lemma engine_lock_never_leaked_witness :
  ∃ s, interleave
         [(0, true); (0, true); (0, true); (0, false); (0, false); (0, true);
          (1, true); (1, true); (1, true); (1, true); (1, true); (1, true);
          (1, true); (1, true)] (arrived 2) = Some s ∧
    pcs s = [Done 500; Done 200] ∧ engine_lock s = None.
Proof.
  eexists. split; [reflexivity|]. split; [reflexivity|].
  apply (engine_lock_never_leaked 2
           [(0, true); (0, true); (0, true); (0, false); (0, false); (0, true);
            (1, true); (1, true); (1, true); (1, true); (1, true); (1, true);
            (1, true); (1, true)]); [reflexivity|].
  intros [|[|t]] p; simpl; by intros [= <-].
Defined.

(** X11. Concurrent requests never deadlock: in every reachable state in
    which some request is not done, some thread can take a step. More
    precisely every thread that is not done can move, except one waiting at
    line 106 while another thread holds the lock, and then the holder can
    move. *)
Theorem requests_never_deadlock (n : nat) (schedule : list (nat * bool))
    (s : Threads) (t : nat) (p : PC) (returns : bool) :
  interleave schedule (arrived n) = Some s →
  pcs s !! t = Some p → is_done p = false →
  (p ≠ L106_acquire → is_Some (thread_step t returns s)) ∧
  (p = L106_acquire → engine_lock s = None →
     is_Some (thread_step t returns s)) ∧
  (∀ t', engine_lock s = Some t' → is_Some (thread_step t' returns s)) ∧
  ∃ t', is_Some (thread_step t' returns s).
Proof.
  intros Hreach Hp Hdone.
  assert (holder_in_block s) as Hheld.
  { apply (interleave_holder schedule (arrived n)); [done|]. by intros t0. }
  assert (∀ t', engine_lock s = Some t' →
            is_Some (thread_step t' returns s)) as Hholder.
  { intros t' Hlock. destruct (Hheld t' Hlock) as (p' & Hp' & Hin).
    apply (thread_step_enabled t' p'); [done| |]; by destruct p'. }
  split_and!; try done.
  - intros Hne. by apply (thread_step_enabled t p).
  - intros -> Hfree. by apply (thread_step_enabled t L106_acquire).
  - destruct (engine_lock s) as [t'|] eqn:Hlock.
    + exists t'. by apply Hholder.
    + exists t. by apply (thread_step_enabled t p).
Qed.

(** The second of two requests waits at line 106 while the first is inside
    [engine.analyse]: the first can move. *)
Lemma requests_never_deadlock_witness :
  thread_step 1 true
    {| engine_lock := Some 0; pcs := [In_analyse true; L106_acquire] |} =
    None ∧
  is_Some (thread_step 0 true
    {| engine_lock := Some 0; pcs := [In_analyse true; L106_acquire] |}).
Proof.
  split; [reflexivity|].
  destruct (requests_never_deadlock 2
              [(0, true); (1, true); (0, true); (0, true)]
              {| engine_lock := Some 0;
                 pcs := [In_analyse true; L106_acquire] |}
              1 L106_acquire true) as (_ & _ & Hholder & _);
    [reflexivity..|].
  by apply Hholder.
Defined.

(** ** Every request ends *)

Lemma rank_insert (l : list PC) t p q :
  l !! t = Some p →
  sum_list_with rank (<[t := q]> l) + rank p = sum_list_with rank l + rank q.
Proof.
  revert t. induction l as [|x l IH]; intros [|t]; simpl; try done.
  - intros [= ->]. lia.
  - intros Hp. specialize (IH t Hp). lia.
Qed.

(** A step brings the thread that takes it closer to the end. *)
Lemma thread_step_rank t returns s s' :
  thread_step t returns s = Some s' → total_rank s' < total_rank s.
Proof.
  unfold thread_step, total_rank. intros Hstep.
  destruct (pcs s !! t) as [p|] eqn:Hp; [|done].
  destruct p as [| |first|first|first|first| |ok| |status];
    try destruct (engine_lock s); simplify_eq; simpl;
    match goal with
    | |- context [<[t := ?q]> _] => pose proof (rank_insert (pcs s) t _ q Hp) as Hr
    end; simpl in Hr;
    repeat match goal with b : bool |- _ => destruct b end; simpl in *; lia.
Qed.

Lemma total_rank_arrived n : total_rank (arrived n) = 13 * n.
Proof.
  unfold total_rank, arrived. simpl.
  induction n as [|n IH]; simpl; [done|]. rewrite IH. lia.
Qed.

Lemma interleave_rank schedule : ∀ s s',
  interleave schedule s = Some s' →
  length schedule + total_rank s' ≤ total_rank s.
Proof.
  induction schedule as [|[t returns] schedule IH]; intros s s'; simpl.
  - intros [= <-]. lia.
  - destruct (thread_step t returns s) as [s1|] eqn:Hstep; [|done].
    intros Hrest. apply IH in Hrest.
    apply thread_step_rank in Hstep. lia.
Qed.

(** X12. However the threads of [n] concurrent requests are interleaved and
    whatever the engine does, they take at most 13 n steps in all: no
    request retries for ever, and a schedule of 13 n steps leaves every
    request done. *)
Theorem requests_end (n : nat) (schedule : list (nat * bool)) (s : Threads) :
  interleave schedule (arrived n) = Some s →
  length schedule ≤ 13 * n ∧
  (length schedule = 13 * n →
     ∀ t p, pcs s !! t = Some p → is_done p = true).
Proof.
  intros Hreach. apply interleave_rank in Hreach.
  rewrite total_rank_arrived in Hreach. split; [lia|].
  intros Hmax t p Hp.
  assert (total_rank s = 0) as Hzero by lia.
  unfold total_rank in Hzero.
  assert (rank p = 0) as Hrank.
  { revert t Hp Hzero. generalize (pcs s).
    induction l as [|x l IH]; intros [|t]; simpl; try done.
    - intros [= ->]. lia.
    - intros Hp Hsum. apply (IH t); [done|lia]. }
  destruct p as [| |[]|[]|[]|[]| | | |]; simpl in Hrank; try done; lia.
Qed.

(** One request that goes through a failed first attempt, a
    re-initialisation and a retry takes 13 steps and is then done. *)
Lemma requests_end_witness :
  interleave
    [(0, true); (0, true); (0, true); (0, true); (0, true); (0, false);
     (0, true); (0, true); (0, true); (0, true); (0, true); (0, true);
     (0, true)] (arrived 1) =
    Some {| engine_lock := None; pcs := [Done 200] |} ∧
  ∀ t p, [Done 200] !! t = Some p → is_done p = true.
Proof.
  split; [reflexivity|].
  apply (requests_end 1
    [(0, true); (0, true); (0, true); (0, true); (0, true); (0, false);
     (0, true); (0, true); (0, true); (0, true); (0, true); (0, true);
     (0, true)]
    {| engine_lock := None; pcs := [Done 200] |}); reflexivity.
Defined.

(** ** The order of the engine calls *)

Section CallOrder.
Context (env : Env).

Lemma plays_follow_analyse_app evs1 evs2 :
  plays_follow_analyse evs1 → plays_follow_analyse evs2 →
  plays_follow_analyse (evs1 ++ evs2).
Proof.
  intros H1 H2 i h b ok Hi.
  destruct (decide (i < length evs1)) as [Hlt|Hge].
  - rewrite lookup_app_l in Hi by done.
    destruct (H1 i h b ok Hi) as (j & -> & Hj).
    exists j. split; [done|]. rewrite lookup_app_l by lia. done.
  - rewrite lookup_app_r in Hi by lia.
    destruct (H2 _ h b ok Hi) as (j & Hij & Hj).
    exists (length evs1 + j). split; [lia|].
    rewrite lookup_app_r by lia.
    by replace (length evs1 + j - length evs1) with j by lia.
Qed.

(** Decides the property on a list that is written out. *)
Ltac no_stray_play :=
  intros i ? ? ? Hi;
  repeat (destruct i as [|i]; simpl in Hi; simplify_eq);
  try (by eexists; split; [reflexivity|]).

Lemma initialize_engine_call_order w :
  ∃ evs, events (initialize_engine env w).2 = events w ++ evs ∧
    plays_follow_analyse evs.
Proof.
  unfold initialize_engine, try_except, mbind, M_bind, mret, M_ret, get_world,
    quit, popen, configure.
  destruct (engine w) as [h|] eqn:Hh; simpl; rewrite ?Hh;
    repeat (case_match; simpl in *; simplify_eq);
    unfold log, set_engine; cbn;
    (eexists; split; [rewrite <-?(assoc_L (++)); reflexivity|]);
    no_stray_play.
Qed.

Lemma evaluate_call_order board w :
  ∃ evs, events (evaluate env board w).2 = events w ++ evs ∧
    plays_follow_analyse evs.
Proof.
  unfold evaluate, mbind, M_bind, analyse, play.
  destruct (engine w) as [h|] eqn:Hh; simpl.
  - destruct (engine_analyse env (events w) h board) as [info|]; simpl.
    + rewrite Hh.
      destruct (engine_play env _ h board) as [pr|]; simpl;
        (eexists; split; [rewrite <-?(assoc_L (++)); reflexivity|]);
        no_stray_play.
    + eexists; split; [reflexivity|]. no_stray_play.
  - exists []. rewrite app_nil_r. split; [done|]. no_stray_play.
Qed.

Lemma evaluate_or_recover_call_order board w :
  ∃ evs, events (evaluate_or_recover env board w).2 = events w ++ evs ∧
    plays_follow_analyse evs.
Proof.
  unfold evaluate_or_recover, try_except, mbind, M_bind.
  destruct (evaluate_call_order board w) as (evs1 & He1 & H1).
  destruct (evaluate env board w) as [[x|e] w1]; simpl in *; [eauto|].
  destruct (initialize_engine_call_order w1) as (evs2 & He2 & H2).
  destruct (initialize_engine env w1) as [[[]|e2] w2]; simpl in *.
  - destruct (evaluate_call_order board w2) as (evs3 & He3 & H3).
    exists (evs1 ++ evs2 ++ evs3). split.
    + by rewrite He3, He2, He1, <-!(assoc_L (++)).
    + by repeat apply plays_follow_analyse_app.
  - exists (evs1 ++ evs2). split.
    + by rewrite He2, He1, <-!(assoc_L (++)).
    + by apply plays_follow_analyse_app.
Qed.

Lemma analyze_call_order request w :
  plays_follow_analyse (events w) →
  plays_follow_analyse (events (analyze env request w).2).
Proof.
  intros Hw. destruct (position_of request) as [key|] eqn:Hpos.
  - pose proof (position_of_nonempty _ _ Hpos) as Hkey.
    rewrite (analyze_position env request key) by done.
    destruct (dict_get key (position_cache w)) as [a|] eqn:Hget.
    + destruct (analyze_hit_frame env key w) as (_ & -> & _); eauto.
    + destruct (chess_Board env key) as [board|e] eqn:Hboard.
      * rewrite (analyze_miss_events env key board) by done.
        destruct (evaluate_or_recover_call_order board w) as (evs & -> & ?).
        by apply plays_follow_analyse_app.
      * unfold analyze.
        by rewrite analyze_try_fen, Hget, cache_miss_eq, Hboard by done.
  - by destruct (analyze_no_position env request w Hpos) as (? & ? & -> & _).
Qed.

Lemma serve_call_order requests : ∀ w,
  plays_follow_analyse (events w) →
  plays_follow_analyse (events (serve env requests w)).
Proof.
  induction requests as [|request requests IH]; intros w Hw; simpl; [done|].
  by apply IH, analyze_call_order.
Qed.

End CallOrder.

(** X13. In the trace of the server, from its start and through any run of
    requests, whatever the engine does, every call of [engine.play] comes
    immediately after a call of [engine.analyse] that returned, for the same
    board and on the same engine process: the handler never asks for a move
    without having the analysis, and never takes the two from different
    processes. *)
Theorem play_follows_analyse (env : Env) (requests : list (outcome JVal))
    (i : nat) (h : nat) (b : Board) (ok : bool) :
  events (serve env requests (started env)) !! i = Some (EvPlay h b ok) →
  ∃ j, i = S j ∧
    events (serve env requests (started env)) !! j =
      Some (EvAnalyse h b true).
Proof.
  apply (serve_call_order env requests (started env)).
  unfold started, startup.
  destruct (initialize_engine_call_order env initial_world) as (evs & -> & ?).
  done.
Qed.

(** After a recovery, the one [play] of the trace is call 7 and follows the
    [analyse] of the replacement, process 4. *)
Lemma play_follows_analyse_witness :
  events (serve restartable_engine [fen_request "startpos"]
            (started restartable_engine)) !! 7 =
    Some (EvPlay 4 {| board_fen := "startpos" |} true) ∧
  ∃ j, 7 = S j ∧
    events (serve restartable_engine [fen_request "startpos"]
              (started restartable_engine)) !! j =
      Some (EvAnalyse 4 {| board_fen := "startpos" |} true).
Proof.
  split; [reflexivity|].
  apply (play_follows_analyse restartable_engine [fen_request "startpos"]
           7 4 {| board_fen := "startpos" |} true).
  reflexivity.
Defined.

(** ** Requests racing for [position_cache] *)

(** [pop] takes one entry out and leaves the others in their order. *)
Lemma dict_pop_sublist {V} k (d : list (string * V)) v d' :
  dict_pop k d = Some (v, d') → d' `sublist_of` d ∧ length d = S (length d').
Proof.
  revert d'. induction d as [|[k' v'] d IH]; simpl; [done|]. intros d'.
  case_decide.
  - intros [= <- <-]. split; [by apply sublist_cons | done].
  - destruct (dict_pop k d) as [[x d'']|] eqn:Hpop; [|done].
    intros [= <- <-]. destruct (IH d'' eq_refl) as [Hs Hl].
    split; [by apply sublist_skip | simpl; lia].
Qed.

Lemma cache_step_Some t s s' :
  cache_step t s = Some s' →
  ∃ th p, cache_threads s !! t = Some th ∧
    cache_op th (shared_cache s) = Some (p, shared_cache s') ∧
    cache_threads s' = <[t := at_pc th p]> (cache_threads s).
Proof.
  unfold cache_step. destruct (cache_threads s !! t) as [th|]; [|done].
  destruct (cache_op th (shared_cache s)) as [[p c]|] eqn:Hop; [|done].
  intros [= <-]. by exists th, p.
Qed.

Lemma lookup_insert_cases {A} (l : list A) t t' x y :
  <[t := x]> l !! t' = Some y → (t = t' ∧ y = x) ∨ (t ≠ t' ∧ l !! t' = Some y).
Proof.
  intros Hl. destruct (decide (t = t')) as [<-|Hne].
  - left. split; [done|].
    destruct (decide (t < length l)).
    + rewrite list_lookup_insert_eq in Hl by done. by injection Hl.
    + apply lookup_lt_Some in Hl. rewrite length_insert in Hl. lia.
  - right. by rewrite list_lookup_insert_ne in Hl.
Qed.

Section Racing.
Variable c0 : list (string * RespDict).
Variable requests : list (string * outcome (string * Z)).

(** One operation keeps the keys distinct, the entries where they belong and
    the thread with what belongs to its position. *)
Lemma cache_op_sound th c p c' :
  cache_op th c = Some (p, c') →
  NoDup (dict_keys c) →
  (∀ k d, (k, d) ∈ c → entry_from c0 requests k d) →
  (∃ t, requests !! t = Some (request_of th)) →
  thread_sound c0 requests th →
  NoDup (dict_keys c') ∧
  (∀ k d, (k, d) ∈ c' → entry_from c0 requests k d) ∧
  thread_sound c0 requests (at_pc th p).
Proof.
  unfold cache_op, thread_sound, request_of. intros Hop Hnd Hfrom [t Ht] Hth.
  destruct (t_pc th) as [|  |r|r|r k0|r|reply] eqn:Hpc; simpl.
  - destruct (dict_get (t_fen th) c) as [d|]; [by simplify_eq|].
    destruct (t_evaluated th) as [x|e] eqn:Hx; simplify_eq; simpl; eauto.
  - destruct (dict_get (t_fen th) c) as [d|] eqn:Hd; simplify_eq; simpl; [|done].
    split_and!; try done. left. exists d. split; [|done].
    by apply Hfrom, dict_get_Some_elem.
  - case_bool_decide; simplify_eq; simpl; done.
  - destruct (dict_first c); simplify_eq; simpl; done.
  - destruct (dict_pop k0 c) as [[x c1]|] eqn:Hpop; simplify_eq; simpl; [|done].
    destruct (dict_pop_sublist _ _ _ _ Hpop) as [Hsub _]. split_and!; [| |done].
    + eapply sublist_NoDup; [exact Hnd|]. unfold dict_keys. by rewrite Hsub.
    + intros k d Hin. eapply Hfrom, elem_of_sublist; eauto.
  - simplify_eq; simpl. split_and!.
    + by apply dict_set_keys_NoDup.
    + intros k d [[= -> ->]|Hin]%dict_set_elem; [|by auto].
      destruct Hth as (x & Hx & ->). right. exists t, x.
      by rewrite Ht, Hx.
    + by right.
  - done.
Qed.

Lemma cache_step_inv t s s' :
  cache_step t s = Some s' →
  race_inv c0 requests s → race_inv c0 requests s'.
Proof.
  intros (th & p & Hth & Hop & Hthreads)%cache_step_Some
         (Hreq & Hnd & Hfrom & Hsound).
  destruct (cache_op_sound th _ _ _ Hop Hnd Hfrom) as (Hnd' & Hfrom' & Hth').
  - exists t. by rewrite <-Hreq, list_lookup_fmap, Hth.
  - eauto.
  - split_and!; try done.
    + rewrite Hthreads, list_fmap_insert, list_insert_id; [done|].
      by rewrite list_lookup_fmap, Hth.
    + intros t' th'. rewrite Hthreads.
      intros [[_ ->]|[_ Hl]]%lookup_insert_cases; eauto.
Qed.

Lemma cache_interleave_inv schedule : ∀ s s',
  cache_interleave schedule s = Some s' →
  race_inv c0 requests s → race_inv c0 requests s'.
Proof.
  induction schedule as [|t schedule IH]; simpl; intros s s' Hrun Hinv.
  - by simplify_eq.
  - destruct (cache_step t s) as [s1|] eqn:Hstep; [|done].
    eauto using cache_step_inv.
Qed.

Lemma race_inv_arrived :
  NoDup (dict_keys c0) → race_inv c0 requests (race_arrived c0 requests).
Proof.
  intros Hnd. unfold race_inv, race_arrived; simpl. split_and!; try done.
  - rewrite <-list_fmap_compose. rewrite <-(list_fmap_id requests) at 2.
    apply list_fmap_ext. by intros i [k ev] _.
  - intros k d Hin. by left.
  - intros t th (r & -> & _)%list_lookup_fmap_Some. done.
Qed.

End Racing.

(** X14. However the operations of concurrent requests on the cache are
    interleaved, results are never mixed up. The keys of the cache stay
    pairwise distinct; every entry was in the cache the requests found or is
    what a request for the very position of its key evaluated; and a reply
    with status 200 is either tagged [cached = true] and the copy of such an
    entry for the requested position, or tagged [cached = false] and the
    request's own evaluation. When the entries found were filed under their
    own ["fen"], so is every entry later, and every 200 reply carries the
    requested position. *)
Theorem racing_replies_sound (c0 : list (string * RespDict))
    (requests : list (string * outcome (string * Z)))
    (schedule : list nat) (s : CacheRace) :
  NoDup (dict_keys c0) →
  cache_interleave schedule (race_arrived c0 requests) = Some s →
  NoDup (dict_keys (shared_cache s)) ∧
  (∀ k d, (k, d) ∈ shared_cache s → entry_from c0 requests k d) ∧
  (∀ t k ev r, requests !! t = Some (k, ev) →
     reply_of t s = Some (Returns r) →
     (cached r = true ∧
      ∃ d, entry_from c0 requests k d ∧ r = set_cached true d) ∨
     (cached r = false ∧ ∃ x, ev = Returns x ∧ r = response_of k x)) ∧
  (entries_sound c0 →
     entries_sound (shared_cache s) ∧
     ∀ t k ev r, requests !! t = Some (k, ev) →
       reply_of t s = Some (Returns r) → fen r = k).
Proof.
  intros Hnd Hrun.
  destruct (cache_interleave_inv c0 requests _ _ _ Hrun
              (race_inv_arrived c0 requests Hnd))
    as (Hreq & Hnd' & Hfrom & Hsound).
  assert (∀ t k ev r, requests !! t = Some (k, ev) →
     reply_of t s = Some (Returns r) →
     (cached r = true ∧
      ∃ d, entry_from c0 requests k d ∧ r = set_cached true d) ∨
     (cached r = false ∧ ∃ x, ev = Returns x ∧ r = response_of k x))
    as Hreply.
  { intros t k ev r Ht. unfold reply_of.
    destruct (cache_threads s !! t) as [th|] eqn:Hth; [|done].
    rewrite <-Hreq, list_lookup_fmap, Hth in Ht. injection Ht as <- <-.
    specialize (Hsound t th Hth). unfold thread_sound in Hsound.
    destruct (t_pc th) as [| | | | | |reply]; try done.
    intros [= ->]. destruct Hsound as [(d & ? & ->)|(x & ? & ->)]; eauto. }
  assert (entries_sound c0 → ∀ k d, entry_from c0 requests k d →
            fen d = k ∧ cached d = false) as Hentry.
  { intros Hc0 k d [Hin|(t & x & _ & ->)]; [by apply Hc0 | done]. }
  split_and!; try done. intros Hc0. split.
  - intros k d Hin. eauto.
  - intros t k ev r Ht Hr.
    destruct (Hreply t k ev r Ht Hr) as [(_ & d & Hd & ->)|(_ & x & _ & ->)];
      [|done].
    simpl. by apply (Hentry Hc0).
Qed.

Lemma racing_replies_sound_witness :
  cache_interleave [0; 0; 0; 1; 1]
    (race_arrived []
       [("startpos", Returns ("e2e4", 31%Z));
        ("startpos", Returns ("d2d4", 28%Z))]) =
    Some {| shared_cache :=
              [("startpos", response_of "startpos" ("e2e4", 31%Z))];
            cache_threads :=
              [{| t_fen := "startpos"; t_evaluated := Returns ("e2e4", 31%Z);
                  t_pc := CDone (Returns (response_of "startpos"
                                            ("e2e4", 31%Z))) |};
               {| t_fen := "startpos"; t_evaluated := Returns ("d2d4", 28%Z);
                  t_pc := CDone (Returns
                    (set_cached true (response_of "startpos"
                                        ("e2e4", 31%Z)))) |}] |} ∧
  ∀ t k ev r,
    [("startpos", Returns ("e2e4", 31%Z));
     ("startpos", Returns ("d2d4", 28%Z))] !! t = Some (k, ev) →
    reply_of t
      {| shared_cache :=
           [("startpos", response_of "startpos" ("e2e4", 31%Z))];
         cache_threads :=
           [{| t_fen := "startpos"; t_evaluated := Returns ("e2e4", 31%Z);
               t_pc := CDone (Returns (response_of "startpos"
                                         ("e2e4", 31%Z))) |};
            {| t_fen := "startpos"; t_evaluated := Returns ("d2d4", 28%Z);
               t_pc := CDone (Returns
                 (set_cached true (response_of "startpos"
                                     ("e2e4", 31%Z)))) |}] |} =
      Some (Returns r) →
    fen r = k.
Proof.
  split; [reflexivity|].
  destruct (racing_replies_sound []
              [("startpos", Returns ("e2e4", 31%Z));
               ("startpos", Returns ("d2d4", 28%Z))] [0; 0; 0; 1; 1]
              {| shared_cache :=
                   [("startpos", response_of "startpos" ("e2e4", 31%Z))];
                 cache_threads :=
                   [{| t_fen := "startpos";
                       t_evaluated := Returns ("e2e4", 31%Z);
                       t_pc := CDone (Returns (response_of "startpos"
                                                 ("e2e4", 31%Z))) |};
                    {| t_fen := "startpos";
                       t_evaluated := Returns ("d2d4", 28%Z);
                       t_pc := CDone (Returns
                         (set_cached true (response_of "startpos"
                                             ("e2e4", 31%Z)))) |}] |})
    as (_ & _ & _ & Hsound).
  - apply NoDup_nil_2.
  - reflexivity.
  - apply Hsound. intros k d Hin. by apply elem_of_nil in Hin.
Defined.

(** The writes that are due change by what the thread that moves does. *)
Lemma write_due_insert (l : list CacheThread) t th th' :
  l !! t = Some th →
  sum_list_with write_due (<[t := th']> l) + write_due th =
  sum_list_with write_due l + write_due th'.
Proof.
  revert t. induction l as [|x l IH]; intros [|t]; simpl; try done.
  - intros [= ->]. lia.
  - intros Hp. specialize (IH t Hp). lia.
Qed.

(** No thread has more than one write due. *)
Lemma write_due_others (l : list CacheThread) t th :
  l !! t = Some th →
  sum_list_with write_due l + 1 ≤ length l + write_due th.
Proof.
  assert (∀ l : list CacheThread, sum_list_with write_due l ≤ length l)
    as Hle.
  { clear. induction l as [|x l IH]; simpl; [done|].
    unfold write_due at 1. destruct (t_pc x); lia. }
  revert t. induction l as [|x l IH]; intros [|t]; simpl; try done.
  - intros [= ->]. specialize (Hle l). lia.
  - intros Hp. specialize (IH t Hp).
    assert (write_due x ≤ 1) by (unfold write_due; destruct (t_pc x); lia).
    lia.
Qed.

(** A step keeps the entries and the writes that are due within the bound:
    a thread skips the eviction only when fewer than [MAX_CACHE_SIZE] entries
    are there, and every other write follows a [pop]. *)
Lemma cache_step_bound B t s s' :
  cache_step t s = Some s' →
  MAX_CACHE_SIZE - 1 + length (cache_threads s) ≤ B →
  length (shared_cache s) + sum_list_with write_due (cache_threads s) ≤ B →
  length (cache_threads s') = length (cache_threads s) ∧
  length (shared_cache s') + sum_list_with write_due (cache_threads s') ≤ B.
Proof.
  intros (th & p & Hth & Hop & Hthreads)%cache_step_Some HB Hinv.
  rewrite Hthreads, length_insert. split; [done|].
  pose proof (write_due_insert _ t th (at_pc th p) Hth) as Hsum.
  pose proof (write_due_others _ t th Hth) as Hothers.
  unfold write_due at 2 4 in Hsum. unfold write_due at 2 in Hothers.
  revert Hop. generalize (shared_cache s') as c'. intros c' Hop.
  unfold cache_op in Hop.
  destruct (t_pc th) as [| |r|r|r k0|r|reply].
  - destruct (dict_get (t_fen th) (shared_cache s));
      [|destruct (t_evaluated th)]; simplify_eq; simpl in Hsum; lia.
  - destruct (dict_get (t_fen th) (shared_cache s));
      simplify_eq; simpl in Hsum; lia.
  - case_bool_decide; simplify_eq; simpl in Hsum; lia.
  - destruct (dict_first (shared_cache s)); simplify_eq; simpl in Hsum; lia.
  - destruct (dict_pop k0 (shared_cache s)) as [[x c1]|] eqn:Hpop;
      simplify_eq; simpl in Hsum; [|lia].
    apply dict_pop_sublist in Hpop as [_ Hlen]. lia.
  - simplify_eq; simpl in Hsum.
    pose proof (dict_set_length_bounds (t_fen th) r (shared_cache s)). lia.
  - done.
Qed.

Lemma cache_interleave_bound B schedule : ∀ s s',
  cache_interleave schedule s = Some s' →
  MAX_CACHE_SIZE - 1 + length (cache_threads s) ≤ B →
  length (shared_cache s) + sum_list_with write_due (cache_threads s) ≤ B →
  length (shared_cache s') + sum_list_with write_due (cache_threads s') ≤ B.
Proof.
  induction schedule as [|t schedule IH]; simpl; intros s s' Hrun HB Hinv.
  - by simplify_eq.
  - destruct (cache_step t s) as [s1|] eqn:Hstep; [|done].
    destruct (cache_step_bound B _ _ _ Hstep HB Hinv) as [Hlen Hinv1].
    apply (IH s1 s' Hrun); [by rewrite Hlen | done].
Qed.

Lemma write_due_arrived c requests :
  sum_list_with write_due (cache_threads (race_arrived c requests)) = 0.
Proof. simpl. induction requests as [|r requests IH]; simpl; [done|]. exact IH. Qed.

(** X15. However [n] concurrent requests are interleaved, the cache never
    holds more than [MAX_CACHE_SIZE - 1 + n] entries, or than it held when
    they arrived if that was more: the limit of line 128 can be passed by
    [n - 1] entries at most, and a request on its own keeps it. *)
Theorem racing_cache_bound (c0 : list (string * RespDict))
    (requests : list (string * outcome (string * Z)))
    (schedule : list nat) (s : CacheRace) :
  cache_interleave schedule (race_arrived c0 requests) = Some s →
  length (shared_cache s) ≤
    Nat.max (length c0) (MAX_CACHE_SIZE - 1 + length requests).
Proof.
  intros Hrun.
  pose proof (cache_interleave_bound
                (Nat.max (length c0) (MAX_CACHE_SIZE - 1 + length requests))
                schedule _ _ Hrun) as Hbound.
  rewrite write_due_arrived in Hbound.
  unfold race_arrived in Hbound at 1 2. cbn [shared_cache cache_threads] in Hbound.
  rewrite length_map in Hbound.
  assert (length (shared_cache s) + sum_list_with write_due (cache_threads s)
          ≤ Nat.max (length c0) (MAX_CACHE_SIZE - 1 + length requests));
    [apply Hbound|]; lia.
Qed.

Lemma racing_cache_bound_witness :
  ∃ s, cache_interleave [0; 1; 0; 1; 0; 1]
         (race_arrived []
            [("startpos", Returns ("e2e4", 31%Z));
             ("8/8/8/8/8/8/8/K6k w - - 0 1", Returns ("a1a2", 0%Z))]) =
         Some s ∧
    length (shared_cache s) ≤ Nat.max 0 (MAX_CACHE_SIZE - 1 + 2).
Proof.
  eexists. split; [reflexivity|].
  apply (racing_cache_bound []
           [("startpos", Returns ("e2e4", 31%Z));
            ("8/8/8/8/8/8/8/K6k w - - 0 1", Returns ("a1a2", 0%Z))]
           [0; 1; 0; 1; 0; 1]).
  reflexivity.
Defined.

(** A step of a thread that is not done. *)
Lemma cache_interleave_cons t schedule s th p c :
  cache_threads s !! t = Some th →
  cache_op th (shared_cache s) = Some (p, c) →
  cache_interleave (t :: schedule) s =
    cache_interleave schedule
      {| shared_cache := c;
         cache_threads := <[t := at_pc th p]> (cache_threads s) |}.
Proof. intros Hth Hop. simpl. unfold cache_step. by rewrite Hth, Hop. Qed.

Lemma dict_pop_None {V} k (d : list (string * V)) :
  k ∉ dict_keys d → dict_pop k d = None.
Proof.
  induction d as [|[k' v'] d IH]; simpl; [done|].
  rewrite not_elem_of_cons. intros [Hne Hnot].
  case_decide; [by subst|]. by rewrite IH.
Qed.

(** Runs the next step of a schedule; [tac] settles the test the operation
    makes on the cache. *)
Ltac race_step tac :=
  erewrite cache_interleave_cons;
  [ | reflexivity
    | unfold cache_op; cbn [t_pc t_fen t_evaluated at_pc shared_cache];
      tac; reflexivity ].

(** X16. Two concurrent requests for two positions that are not in the cache
    can leave [MAX_CACHE_SIZE + 1] entries in it: when the cache is one entry
    short of the limit, both pass the test of line 128 before either writes
    at line 130, and both are answered 200. *)
Theorem concurrent_puts_overshoot (c0 : list (string * RespDict))
    (k1 k2 : string) (x1 x2 : string * Z) :
  S (length c0) = MAX_CACHE_SIZE →
  dict_get k1 c0 = None → dict_get k2 c0 = None → k1 ≠ k2 →
  ∃ s,
    cache_interleave [0; 1; 0; 1; 0; 1]
      (race_arrived c0 [(k1, Returns x1); (k2, Returns x2)]) = Some s ∧
    length (shared_cache s) = S MAX_CACHE_SIZE ∧
    reply_of 0 s = Some (Returns (response_of k1 x1)) ∧
    reply_of 1 s = Some (Returns (response_of k2 x2)).
Proof.
  intros Hlen Hk1 Hk2 Hne.
  assert (bool_decide (MAX_CACHE_SIZE ≤ length c0) = false) as Hroom
    by (apply bool_decide_eq_false_2; lia).
  eexists. split; [|split_and!].
  - unfold race_arrived; cbn [map fst snd].
    race_step ltac:(rewrite Hk1).
    race_step ltac:(rewrite Hk2).
    race_step ltac:(rewrite Hroom).
    race_step ltac:(rewrite Hroom).
    race_step idtac.
    race_step idtac.
    reflexivity.
  - cbn [shared_cache]. rewrite !dict_set_length_absent; [lia| |].
    + by apply dict_get_None.
    + apply dict_get_None. by rewrite dict_get_set_ne.
  - reflexivity.
  - reflexivity.
Qed.

Lemma concurrent_puts_overshoot_witness :
  ∃ s,
    cache_interleave [0; 1; 0; 1; 0; 1]
      (race_arrived (filled_cache 511)
         [(key_of 511, Returns ("d2d4", 1%Z));
          (key_of 512, Returns ("c2c4", 2%Z))]) = Some s ∧
    length (shared_cache s) = 513.
Proof.
  destruct (concurrent_puts_overshoot (filled_cache 511)
              (key_of 511) (key_of 512) ("d2d4", 1%Z) ("c2c4", 2%Z))
    as (s & Hrun & Hlen & _).
  - vm_compute. reflexivity.
  - vm_compute. reflexivity.
  - vm_compute. reflexivity.
  - apply (bool_decide_unpack _). vm_compute. exact I.
  - exists s. split; [exact Hrun | exact Hlen].
Defined.

(** What a full cache with distinct keys gives the operations of line 129,
    and a reader of its oldest key afterwards. *)
Lemma full_cache_ops (c0 : list (string * RespDict)) k0 :
  NoDup (dict_keys c0) → MAX_CACHE_SIZE ≤ length c0 →
  dict_first c0 = Some k0 →
  bool_decide (MAX_CACHE_SIZE ≤ length c0) = true ∧
  (∃ d0, dict_get k0 c0 = Some d0 ∧ dict_pop k0 c0 = Some (d0, tail c0)) ∧
  dict_get k0 (tail c0) = None ∧
  dict_pop k0 (tail c0) = None.
Proof.
  intros Hnd Hfull Hfirst.
  assert (dict_get k0 (tail c0) = None) as Hgone.
  { rewrite dict_get_tail by done. by rewrite decide_True. }
  split_and!; try done.
  - by apply bool_decide_eq_true_2.
  - destruct c0 as [|[k d0] c1]; simpl in Hfirst; simplify_eq.
    exists d0. simpl. by case_decide.
  - by apply dict_pop_None, dict_get_None.
Qed.

(** X17. A request for a position that is in the cache can be answered 500:
    when the position is the oldest entry of a full cache, and another
    request stores a new position between the test of line 99 and the read
    of line 100, the read raises [KeyError]. The other request is answered
    200 and its result has taken the place of the entry. *)
Theorem eviction_breaks_hit (c0 : list (string * RespDict))
    (k k' : string) (ev : outcome (string * Z)) (x' : string * Z) :
  NoDup (dict_keys c0) → MAX_CACHE_SIZE ≤ length c0 →
  dict_first c0 = Some k → dict_get k' c0 = None →
  is_Some (dict_get k c0) ∧
  ∃ s,
    cache_interleave [0; 1; 1; 1; 1; 0; 1]
      (race_arrived c0 [(k, ev); (k', Returns x')]) = Some s ∧
    reply_of 0 s = Some (Raises (KeyError k)) ∧
    reply_of 1 s = Some (Returns (response_of k' x')) ∧
    shared_cache s = dict_set k' (response_of k' x') (tail c0).
Proof.
  intros Hnd Hfull Hfirst Hk'.
  destruct (full_cache_ops c0 k Hnd Hfull Hfirst)
    as (Hfull' & (d0 & Hget & Hpop) & Hgone & _).
  split; [by rewrite Hget|].
  eexists. split; [|split_and!].
  - unfold race_arrived; cbn [map fst snd].
    race_step ltac:(rewrite Hget).
    race_step ltac:(rewrite Hk').
    race_step ltac:(rewrite Hfull').
    race_step ltac:(rewrite Hfirst).
    race_step ltac:(rewrite Hpop).
    race_step ltac:(rewrite Hgone).
    race_step idtac.
    reflexivity.
  - reflexivity.
  - reflexivity.
  - reflexivity.
Qed.

Lemma eviction_breaks_hit_witness :
  is_Some (dict_get (key_of 0) (filled_cache 512)) ∧
  ∃ s,
    cache_interleave [0; 1; 1; 1; 1; 0; 1]
      (race_arrived (filled_cache 512)
         [(key_of 0, Returns ("e2e4", 0%Z));
          (key_of 512, Returns ("d2d4", 1%Z))]) = Some s ∧
    reply_of 0 s = Some (Raises (KeyError (key_of 0))).
Proof.
  destruct (eviction_breaks_hit (filled_cache 512) (key_of 0) (key_of 512)
              (Returns ("e2e4", 0%Z)) ("d2d4", 1%Z))
    as (Hin & s & Hrun & Hreply & _).
  - apply (bool_decide_unpack _). vm_compute. exact I.
  - vm_compute. lia.
  - vm_compute. reflexivity.
  - vm_compute. reflexivity.
  - split; [exact Hin|]. exists s. split; [exact Hrun | exact Hreply].
Defined.

(** X18. A request whose evaluation succeeded can be answered 500 and its
    result lost: when two requests for uncached positions meet a full cache
    and both read the oldest key at line 129 before either pops it, the
    second [pop] raises [KeyError]. The first request is answered 200 and
    only its result is stored. *)
Theorem racing_evictions_fail (c0 : list (string * RespDict))
    (k0 k1 k2 : string) (x1 x2 : string * Z) :
  NoDup (dict_keys c0) → MAX_CACHE_SIZE ≤ length c0 →
  dict_first c0 = Some k0 →
  dict_get k1 c0 = None → dict_get k2 c0 = None →
  ∃ s,
    cache_interleave [0; 1; 0; 1; 0; 1; 0; 1; 0]
      (race_arrived c0 [(k1, Returns x1); (k2, Returns x2)]) = Some s ∧
    reply_of 0 s = Some (Returns (response_of k1 x1)) ∧
    reply_of 1 s = Some (Raises (KeyError k0)) ∧
    shared_cache s = dict_set k1 (response_of k1 x1) (tail c0).
Proof.
  intros Hnd Hfull Hfirst Hk1 Hk2.
  destruct (full_cache_ops c0 k0 Hnd Hfull Hfirst)
    as (Hfull' & (d0 & Hget & Hpop) & _ & Hpop').
  eexists. split; [|split_and!].
  - unfold race_arrived; cbn [map fst snd].
    race_step ltac:(rewrite Hk1).
    race_step ltac:(rewrite Hk2).
    race_step ltac:(rewrite Hfull').
    race_step ltac:(rewrite Hfull').
    race_step ltac:(rewrite Hfirst).
    race_step ltac:(rewrite Hfirst).
    race_step ltac:(rewrite Hpop).
    race_step ltac:(rewrite Hpop').
    race_step idtac.
    reflexivity.
  - reflexivity.
  - reflexivity.
  - reflexivity.
Qed.

Lemma racing_evictions_fail_witness :
  ∃ s,
    cache_interleave [0; 1; 0; 1; 0; 1; 0; 1; 0]
      (race_arrived (filled_cache 512)
         [(key_of 512, Returns ("d2d4", 1%Z));
          (key_of 513, Returns ("c2c4", 2%Z))]) = Some s ∧
    reply_of 1 s = Some (Raises (KeyError (key_of 0))) ∧
    dict_get (key_of 513) (shared_cache s) = None.
Proof.
  destruct (racing_evictions_fail (filled_cache 512) (key_of 0)
              (key_of 512) (key_of 513) ("d2d4", 1%Z) ("c2c4", 2%Z))
    as (s & Hrun & _ & Hreply & Hcache).
  - apply (bool_decide_unpack _). vm_compute. exact I.
  - vm_compute. lia.
  - vm_compute. reflexivity.
  - vm_compute. reflexivity.
  - vm_compute. reflexivity.
  - exists s. split; [exact Hrun|]. split; [exact Hreply|].
    rewrite Hcache. vm_compute. reflexivity.
Defined.

(** A thread on its own: one step, and the end. *)
Lemma cache_run_step fuel t c l th p p' c' :
  l !! t = Some th →
  cache_op (at_pc th p) c = Some (p', c') →
  cache_run (S fuel) t
    {| shared_cache := c; cache_threads := <[t := at_pc th p]> l |} =
  cache_run fuel t
    {| shared_cache := c'; cache_threads := <[t := at_pc th p']> l |}.
Proof.
  intros Hth Hop. simpl. unfold cache_step. cbn [cache_threads shared_cache].
  rewrite list_lookup_insert_eq by (by eapply lookup_lt_Some).
  by rewrite Hop, list_insert_insert_eq.
Qed.

Lemma cache_run_done fuel t c l th reply :
  l !! t = Some th →
  cache_run fuel t
    {| shared_cache := c;
       cache_threads := <[t := at_pc th (CDone reply)]> l |} =
  {| shared_cache := c; cache_threads := <[t := at_pc th (CDone reply)]> l |}.
Proof.
  intros Hth. destruct fuel as [|fuel]; simpl; [done|].
  unfold cache_step. cbn [cache_threads shared_cache].
  by rewrite list_lookup_insert_eq by (by eapply lookup_lt_Some).
Qed.

Lemma reply_of_insert t c l th reply :
  l !! t = Some th →
  reply_of t {| shared_cache := c;
                cache_threads := <[t := at_pc th (CDone reply)]> l |} =
  Some reply.
Proof.
  intros Hth. unfold reply_of. cbn [cache_threads].
  by rewrite list_lookup_insert_eq by (by eapply lookup_lt_Some).
Qed.

Ltac alone_step tac :=
  erewrite cache_run_step;
  [ | eassumption
    | unfold cache_op; cbn [t_pc t_fen t_evaluated at_pc]; tac; reflexivity ].

(** X19. A request that no other request interrupts does to the cache what
    the handler does when requests come one at a time: a position that is in
    the cache is answered with the copy of its entry, tagged
    [cached = true], and the cache is left as it is; a position that is not
    is answered with its own evaluation, and the cache is what [cache_put]
    makes of it, or is left as it is when the evaluation raises. The other
    threads are where they were. *)
Theorem alone_is_sequential (fuel t : nat) (s : CacheRace)
    (th : CacheThread) :
  5 ≤ fuel →
  cache_threads s !! t = Some th → t_pc th = C99_contains →
  match dict_get (t_fen th) (shared_cache s) with
  | Some d =>
      shared_cache (cache_run fuel t s) = shared_cache s ∧
      reply_of t (cache_run fuel t s) = Some (Returns (set_cached true d))
  | None =>
      match t_evaluated th with
      | Returns x =>
          cache_put (t_fen th) (response_of (t_fen th) x) (shared_cache s) =
            Returns (shared_cache (cache_run fuel t s)) ∧
          reply_of t (cache_run fuel t s) =
            Some (Returns (response_of (t_fen th) x))
      | Raises e =>
          shared_cache (cache_run fuel t s) = shared_cache s ∧
          reply_of t (cache_run fuel t s) = Some (Raises e)
      end
  end ∧
  ∀ t', t' ≠ t →
    cache_threads (cache_run fuel t s) !! t' = cache_threads s !! t'.
Proof.
  intros Hfuel Hth Hpc. destruct s as [c l]. cbn [shared_cache cache_threads] in *.
  do 5 (destruct fuel as [|fuel]; [lia|]). clear Hfuel.
  assert ({| shared_cache := c; cache_threads := l |} =
          {| shared_cache := c;
             cache_threads := <[t := at_pc th C99_contains]> l |}) as ->.
  { f_equal. symmetry. apply list_insert_id. rewrite Hth. f_equal.
    destruct th; simpl in *; by subst. }
  assert (∀ t' p, t' ≠ t → <[t := at_pc th p]> l !! t' = l !! t') as Hother.
  { intros t' p Hne. by rewrite list_lookup_insert_ne. }
  destruct (dict_get (t_fen th) c) as [d|] eqn:Hget;
    [|destruct (t_evaluated th) as [x|e] eqn:Hev].
  - alone_step ltac:(rewrite Hget). alone_step ltac:(rewrite Hget).
    rewrite cache_run_done, reply_of_insert by done.
    cbn [shared_cache cache_threads]. split_and!; auto.
  - alone_step ltac:(rewrite Hget, Hev).
    destruct (decide (MAX_CACHE_SIZE ≤ length c)) as [Hfull|Hroom].
    + destruct (dict_first_is_Some c) as [k0 Hfirst];
        [pose proof MAX_CACHE_SIZE_pos; lia|].
      destruct (dict_pop_first k0 c Hfirst) as [v Hpop].
      alone_step ltac:(rewrite (bool_decide_eq_true_2 _ Hfull)).
      alone_step ltac:(rewrite Hfirst).
      alone_step ltac:(rewrite Hpop).
      alone_step idtac.
      rewrite cache_run_done, reply_of_insert by done.
      rewrite cache_put_full by done.
      cbn [shared_cache cache_threads]. split_and!; auto.
    + alone_step ltac:(rewrite (bool_decide_eq_false_2 _ Hroom)).
      alone_step idtac.
      rewrite cache_run_done, reply_of_insert by done.
      rewrite cache_put_room by lia.
      cbn [shared_cache cache_threads]. split_and!; auto.
  - alone_step ltac:(rewrite Hget, Hev).
    rewrite cache_run_done, reply_of_insert by done.
    cbn [shared_cache cache_threads]. split_and!; auto.
Qed.

Lemma alone_is_sequential_witness :
  cache_put (key_of 512) (response_of (key_of 512) ("d2d4", 1%Z))
    (filled_cache 512) =
    Returns (shared_cache
      (cache_run 5 0
         (race_arrived (filled_cache 512)
            [(key_of 512, Returns ("d2d4", 1%Z))]))) ∧
  reply_of 0
    (cache_run 5 0
       (race_arrived (filled_cache 512)
          [(key_of 512, Returns ("d2d4", 1%Z))])) =
    Some (Returns (response_of (key_of 512) ("d2d4", 1%Z))).
Proof.
  pose proof (alone_is_sequential 5 0
    (race_arrived (filled_cache 512) [(key_of 512, Returns ("d2d4", 1%Z))])
    {| t_fen := key_of 512; t_evaluated := Returns ("d2d4", 1%Z);
       t_pc := C99_contains |}
    (le_n 5) eq_refl eq_refl) as [Hrun _].
  cbn [t_fen t_evaluated shared_cache race_arrived] in Hrun.
  replace (dict_get (key_of 512) (filled_cache 512)) with (@None RespDict)
    in Hrun by (vm_compute; reflexivity).
  exact Hrun.
Defined.

(** * The cache through the handler *)

Section Stores.
Context (env : Env).







End Stores.






